(** * Bitbucket webhook endpoint (sentry_plugins/bitbucket/endpoints/webhook.py)

    A shallow embedding of the webhook receiver: the author-email regular
    expression, the storage operations the handler issues through the ORM,
    the push-event handler and the HTTP endpoint in front of it, followed by
    the properties of the written specification that were checked on them.

    Conventions.
    - Python text is [string] (a sequence of 8-bit characters); [len] is
      [String.length].
    - A Python dict is a [gmap] ([authors], [repo.config], [request.META],
      [_handlers]).
    - Code that raises is a computation in the monad [M]: it threads the
      storage and yields either [Return v] or [Raise e].  What was written
      before an exception is raised stays written, unless the exception
      crosses [transaction_atomic].
    - Collaborators that live outside the plugin (the ignore rule, the date
      parser, the address parser, the JSON decoder) are the fields of the
      class [Collaborators]; everything is stated for any instance of it. *)

From Stdlib Require Import ZArith Ascii String.
From stdpp Require Import base decidable option list strings gmap relations.

Open Scope Z_scope.

(** ** Exceptions and outcomes *)

Inductive exn : Type :=
  | Http404
  | AttributeError
  | ValueError
  | KeyError
  | UnicodeDecodeError
  | JSONDecodeError
  | DoesNotExist
  | MultipleObjectsReturned
  | IntegrityError.

#[global] Instance exn_eq_dec : EqDecision exn.
Proof. solve_decision. Defined.

Inductive outcome (A : Type) : Type :=
  | Return (a : A)
  | Raise (e : exn).
Arguments Return {A} a.
Arguments Raise {A} e.

(** ** The regular expression of [parse_raw_user]

    [re.search('(?<=<).*(?=>$)', raw)]: the pattern is tried at every
    position of [raw] from the left; at a position it needs a ['<'] just
    before ([(?<=<)]), then lets [.*] take as many characters other than a
    line feed as it can and gives them back one at a time until what follows
    is a ['>'] that ends the text ([(?=>$)]).  Both look-arounds are of width
    zero, so [group(0)] is what [.*] kept. *)

Definition LF : ascii := "010"%char.

(** [$] without the MULTILINE flag: the end of the text, or the place just
    before a line feed that ends the text. *)
Definition at_dollar (rest : string) : bool :=
  match rest with
  | EmptyString => true
  | String c EmptyString => bool_decide (c = LF)
  | String _ (String _ _) => false
  end.

(** [(?=>$)] *)
Definition lookahead_gt_dollar (rest : string) : bool :=
  match rest with
  | String c r => bool_decide (c = ">"%char) && at_dollar r
  | EmptyString => false
  end.

(** [.*(?=>$)] tried at the start of [rest]: the longer alternatives of the
    greedy star come first, the empty one last. *)
Fixpoint dot_star (rest : string) : option string :=
  match rest with
  | String c r =>
      if bool_decide (c = LF) then
        if lookahead_gt_dollar rest then Some EmptyString else None
      else
        match dot_star r with
        | Some m => Some (String c m)
        | None => if lookahead_gt_dollar rest then Some EmptyString else None
        end
  | EmptyString => if lookahead_gt_dollar rest then Some EmptyString else None
  end.

(** The scan of [re.search]: [prev] is the character before the current
    position ([None] at the start of the text). *)
Fixpoint search (prev : option ascii) (rest : string) : option string :=
  match (if bool_decide (prev = Some "<"%char) then dot_star rest else None) with
  | Some m => Some m
  | None =>
      match rest with
      | String c r => search (Some c) r
      | EmptyString => None
      end
  end.

Definition re_search (raw : string) : option string := search None raw.

(** [re.search(...).group(0)]: [re.search] returns [None] when nothing
    matches, and [None] has no attribute [group]. *)
Definition parse_raw_user (raw : string) : outcome string :=
  match re_search raw with
  | Some m => Return m
  | None => Raise AttributeError
  end.


(** ** Stored rows

    Modelled from the spec: the models ([sentry.models]) and the ORM belong
    to the platform, not to the plugin.  The rows are those of the data
    model of the specification, with the columns the handler reads or
    writes; the storage enforces the two uniqueness constraints the
    specification names: one CommitAuthor per (organization_id, email) and
    one Commit per (repository_id, key). *)

Record Organization : Type := {
  organization_id : Z
}.

Record Repository : Type := {
  repository_id : Z;
  repository_organization_id : Z;
  repository_provider : string;
  repository_external_id : string;
  repository_config : gmap string string
}.

Record CommitAuthor : Type := {
  author_id : Z;
  author_organization_id : Z;
  author_email : string;
  author_name : string
}.

Record Commit : Type := {
  commit_id : Z;
  commit_repository_id : Z;
  commit_organization_id : Z;
  commit_key : string;
  commit_message : string;
  commit_author : option CommitAuthor;
  commit_date_added : Z
}.

Record Storage : Type := {
  organizations : list Organization;
  repositories : list Repository;
  commit_authors : list CommitAuthor;
  commits : list Commit
}.

#[global] Instance Organization_eq_dec : EqDecision Organization.
Proof. solve_decision. Defined.
#[global] Instance Repository_eq_dec : EqDecision Repository.
Proof. solve_decision. Defined.
#[global] Instance CommitAuthor_eq_dec : EqDecision CommitAuthor.
Proof. solve_decision. Defined.
#[global] Instance Commit_eq_dec : EqDecision Commit.
Proof. solve_decision. Defined.

Definition set_repositories (rs : list Repository) (s : Storage) : Storage :=
  {| organizations := organizations s; repositories := rs;
     commit_authors := commit_authors s; commits := commits s |}.

Definition set_commit_authors (l : list CommitAuthor) (s : Storage) : Storage :=
  {| organizations := organizations s; repositories := repositories s;
     commit_authors := l; commits := commits s |}.

Definition set_commits (cs : list Commit) (s : Storage) : Storage :=
  {| organizations := organizations s; repositories := repositories s;
     commit_authors := commit_authors s; commits := cs |}.

(** The primary key handed to a new row: one more than the largest in use. *)
Definition next_id {A : Type} (pk : A → Z) (rows : list A) : Z :=
  1 + foldr Z.max 0 (pk <$> rows).

(** ** Computations over the storage *)

Definition M (A : Type) : Type := Storage → outcome A * Storage.

Definition ret {A : Type} (a : A) : M A := fun s => (Return a, s).

Definition raise {A : Type} (e : exn) : M A := fun s => (Raise e, s).

Definition bind {A B : Type} (m : M A) (k : A → M B) : M B :=
  fun s =>
    match m s with
    | (Return a, s') => k a s'
    | (Raise e, s') => (Raise e, s')
    end.

Declare Scope orm_scope.
Delimit Scope orm_scope with orm.
Notation "'let*' x ':=' m 'in' k" := (bind m (fun x => k))
  (at level 10, x pattern, m at level 100, k at level 200) : orm_scope.
Notation "m ';;' k" := (bind m (fun _ => k))
  (at level 100, k at level 200, right associativity) : orm_scope.
Open Scope orm_scope.

(** A pure step that may raise. *)
Definition lift {A : Type} (o : outcome A) : M A := fun s => (o, s).

(** [try: body / except e: handler] for the one exception class [e]. *)
Definition try_except {A : Type} (body : M A) (e : exn) (handler : M A) : M A :=
  fun s =>
    match body s with
    | (Return a, s') => (Return a, s')
    | (Raise e', s') => if decide (e' = e) then handler s' else (Raise e', s')
    end.

(** Modelled from the spec: [with transaction.atomic(): body], the atomic
    unit of the datastore.  When [body] raises, what it wrote is rolled back
    and the exception goes on. *)
Definition transaction_atomic {A : Type} (body : M A) : M A :=
  fun s =>
    match body s with
    | (Return a, s') => (Return a, s')
    | (Raise e, _) => (Raise e, s)
    end.

(** [for x in xs: acc = body(acc, x)] *)
Fixpoint for_each {A S : Type} (xs : list A) (body : S → A → M S) (acc : S) : M S :=
  match xs with
  | [] => ret acc
  | x :: xs' => let* acc' := body acc x in for_each xs' body acc'
  end.

(** ** The ORM calls the endpoint makes *)

(** [Model.objects.get(...)] over the rows that match: exactly one, or
    [DoesNotExist], or [MultipleObjectsReturned]. *)
Definition objects_get {A : Type} (matching : list A) : outcome A :=
  match matching with
  | [] => Raise DoesNotExist
  | [row] => Return row
  | _ :: _ :: _ => Raise MultipleObjectsReturned
  end.

(** [Organization.objects.get_from_cache(id=...)] *)
Definition Organization_objects_get_from_cache (id : Z) : M Organization :=
  fun s => (objects_get (filter (λ o, organization_id o = id) (organizations s)), s).

Definition repository_matches (org : Z) (provider external_id : string)
    (r : Repository) : Prop :=
  repository_organization_id r = org ∧ repository_provider r = provider ∧
  repository_external_id r = external_id.

#[global] Instance repository_matches_dec org provider external_id r :
  Decision (repository_matches org provider external_id r).
Proof. unfold repository_matches. apply _. Defined.

(** [Repository.objects.get(organization_id=, provider=, external_id=)] *)
Definition Repository_objects_get (org : Z) (provider external_id : string) : M Repository :=
  fun s =>
    (objects_get (filter (repository_matches org provider external_id) (repositories s)), s).

(** [repo.save()]: update the row with this primary key, insert the row when
    there is none. *)
Definition Repository_save (repo : Repository) : M unit :=
  fun s =>
    let same := λ r : Repository, bool_decide (repository_id r = repository_id repo) in
    if existsb same (repositories s) then
      (Return tt,
       set_repositories ((λ r, if same r then repo else r) <$> repositories s) s)
    else
      (Return tt, set_repositories (repositories s ++ [repo]) s).

Definition author_matches (org : Z) (email : string) (a : CommitAuthor) : Prop :=
  author_organization_id a = org ∧ author_email a = email.

#[global] Instance author_matches_dec org email a : Decision (author_matches org email a).
Proof. unfold author_matches. apply _. Defined.

(** [CommitAuthor.objects.get(organization_id=, email=)] *)
Definition CommitAuthor_objects_get (org : Z) (email : string) : M CommitAuthor :=
  fun s => (objects_get (filter (author_matches org email) (commit_authors s)), s).

(** Modelled from the spec: [CommitAuthor.objects.create(...)] under the
    uniqueness constraint of the datastore.  The insert is refused with
    [IntegrityError] when a row with this (organization_id, email) exists. *)
Definition CommitAuthor_objects_create (org : Z) (email name : string) : M CommitAuthor :=
  fun s =>
    if decide (Exists (author_matches org email) (commit_authors s)) then
      (Raise IntegrityError, s)
    else
      let row := {| author_id := next_id author_id (commit_authors s);
                    author_organization_id := org;
                    author_email := email;
                    author_name := name |} in
      (Return row, set_commit_authors (commit_authors s ++ [row]) s).

(** Modelled from the spec: [CommitAuthor.objects.get_or_create(
    organization_id=, email=, defaults={'name': name})[0]], the get-or-create
    of the datastore, as the ORM runs it: get; on [DoesNotExist] create
    inside a savepoint; on [IntegrityError] (somebody else created the row
    meanwhile) get again, and raise the [IntegrityError] when there still is
    no row. *)
Definition CommitAuthor_objects_get_or_create (org : Z) (email name : string) : M CommitAuthor :=
  try_except (CommitAuthor_objects_get org email) DoesNotExist
    (try_except (transaction_atomic (CommitAuthor_objects_create org email name))
       IntegrityError
       (try_except (CommitAuthor_objects_get org email) DoesNotExist
          (raise IntegrityError))).

Definition commit_matches (repo : Z) (key : string) (c : Commit) : Prop :=
  commit_repository_id c = repo ∧ commit_key c = key.

#[global] Instance commit_matches_dec repo key c : Decision (commit_matches repo key c).
Proof. unfold commit_matches. apply _. Defined.

(** Modelled from the spec: [Commit.objects.create(...)] under the
    uniqueness constraint of the datastore.  The insert is refused with
    [IntegrityError] when a row with this (repository_id, key) exists. *)
Definition Commit_objects_create (repo org : Z) (key message : string)
    (author : option CommitAuthor) (date_added : Z) : M Commit :=
  fun s =>
    if decide (Exists (commit_matches repo key) (commits s)) then
      (Raise IntegrityError, s)
    else
      let row := {| commit_id := next_id commit_id (commits s);
                    commit_repository_id := repo;
                    commit_organization_id := org;
                    commit_key := key;
                    commit_message := message;
                    commit_author := author;
                    commit_date_added := date_added |} in
      (Return row, set_commits (commits s ++ [row]) s).

(** ** The push-event payload

    The part of the provider's push-event schema the handler reads:
    [repository.uuid], [repository.full_name] and
    [push.changes[].commits[].{hash, message, author.raw, date}].  The
    handler reads [commits] with [change.get('commits', [])], so that key
    may be missing; the others are indexed directly. *)

Record CommitPayload : Type := {
  hash : string;
  message : string;
  author_raw : string;
  date : string
}.

Record Change : Type := {
  change_commits : option (list CommitPayload)
}.

Record PushEvent : Type := {
  repository_uuid : string;
  repository_full_name : string;
  push_changes : list Change
}.

(** ** Addresses *)

Inductive IPAddress : Type :=
  | IPv4Address (ip : Z)
  | IPv6Address (ip : Z).

Record IPv4Network : Type := {
  network_address : Z;
  broadcast_address : Z
}.

Definition ipv4 (a b c d : Z) : Z :=
  Z.lor (Z.shiftl a 24) (Z.lor (Z.shiftl b 16) (Z.lor (Z.shiftl c 8) d)).

(** [ipaddress.ip_network(u'104.192.143.0/24')] *)
Definition BITBUCKET_IP_RANGE : IPv4Network :=
  {| network_address := ipv4 104 192 143 0;
     broadcast_address := ipv4 104 192 143 255 |}.

(** [address in network]: never for an address of the other version. *)
Definition ip_in_network (address : IPAddress) (network : IPv4Network) : bool :=
  match address with
  | IPv4Address ip =>
      bool_decide (network_address network ≤ ip ≤ broadcast_address network)
  | IPv6Address _ => false
  end.

(** ** Collaborators outside the plugin *)

Class Collaborators : Type := {
  (** [RepositoryProvider.should_ignore_commit(message)] *)
  should_ignore_commit : string → bool;
  (** [dateutil.parser.parse(text).astimezone(timezone.utc)] as seconds since
      the epoch; [None] when either call raises [ValueError]. *)
  parse_date_utc : string → option Z;
  (** [ipaddress.ip_address(text)]; [None] when it raises [ValueError]. *)
  ip_address : string → option IPAddress;
  (** [json.loads(body.decode('utf-8'))]: the event, or [JSONDecodeError], or
      the [UnicodeDecodeError] of [decode]. *)
  json_loads : string → outcome PushEvent
}.

(** The row [insert_commit] writes. *)
Definition commit_row (organization : Organization) (repo : Repository)
    (commit : CommitPayload) (author : option CommitAuthor) (date_added : Z)
    (s : Storage) : Commit :=
  {| commit_id := next_id commit_id (commits s);
     commit_repository_id := repository_id repo;
     commit_organization_id := organization_id organization;
     commit_key := hash commit;
     commit_message := message commit;
     commit_author := author;
     commit_date_added := date_added |}.

(** ** Text helpers of the author name *)

(** [raw.split('<')[0]]: the text before the first ['<'], all of it when
    there is none. *)
Fixpoint split_lt_head (raw : string) : string :=
  match raw with
  | EmptyString => EmptyString
  | String c r => if bool_decide (c = "<"%char) then EmptyString else String c (split_lt_head r)
  end.

Fixpoint lstrip (text : string) : string :=
  match text with
  | EmptyString => EmptyString
  | String c r => if Ascii.is_space c then lstrip r else text
  end.

(** [text.strip()] *)
Definition strip (text : string) : string :=
  String.rev (lstrip (String.rev (lstrip text))).

(** ** The push-event handler *)

Section PushEventWebhook.
Context {collaborators : Collaborators}.

(** Lines 66-77: the author of one commit, through the memo [authors] of
    the request. *)
Definition resolve_author (organization : Organization) (raw author_email : string)
    (authors : gmap string CommitAuthor)
  : M (option CommitAuthor * gmap string CommitAuthor) :=
  if bool_decide (75 < Z.of_nat (String.length author_email)) then
    ret (None, authors)
  else
    match authors !! author_email with
    | None =>
        let* author := CommitAuthor_objects_get_or_create
                         (organization_id organization) author_email
                         (strip (split_lt_head raw)) in
        ret (Some author, <[author_email := author]> authors)
    | Some author => ret (Some author, authors)
    end.

(** Lines 78-93: the insert of the Commit row inside [transaction.atomic()],
    with [IntegrityError] passed over.  The arguments of [create] are
    evaluated inside the [with] block, so a [ValueError] of the date leaves
    through it; it is not an [IntegrityError] and goes on to the caller. *)
Definition insert_commit (organization : Organization) (repo : Repository)
    (commit : CommitPayload) (author : option CommitAuthor) : M unit :=
  try_except
    (transaction_atomic
       (let* date_added := lift (match parse_date_utc (date commit) with
                                 | Some t => Return t
                                 | None => Raise ValueError
                                 end) in
        Commit_objects_create (repository_id repo) (organization_id organization)
          (hash commit) (message commit) author date_added ;;
        ret tt))
    IntegrityError
    (ret tt).

(** The body of the inner loop, lines 59-93. *)
Definition process_commit (organization : Organization) (repo : Repository)
    (authors : gmap string CommitAuthor) (commit : CommitPayload)
  : M (gmap string CommitAuthor) :=
  if should_ignore_commit (message commit) then
    ret authors
  else
    let* author_email := lift (parse_raw_user (author_raw commit)) in
    let* (author, authors') := resolve_author organization (author_raw commit)
                                  author_email authors in
    insert_commit organization repo commit author ;;
    ret authors'.

(** The body of the outer loop, lines 57-58:
    [for commit in change.get('commits', [])]. *)
Definition process_change (organization : Organization) (repo : Repository)
    (authors : gmap string CommitAuthor) (change : Change)
  : M (gmap string CommitAuthor) :=
  for_each (default [] (change_commits change)) (process_commit organization repo) authors.

(** Lines 53-55: keep the stored name in step with the payload. *)
Definition sync_name (repo : Repository) (full_name : string) : M Repository :=
  if bool_decide (repository_config repo !! "name" ≠ Some full_name) then
    let repo' := {| repository_id := repository_id repo;
                    repository_organization_id := repository_organization_id repo;
                    repository_provider := repository_provider repo;
                    repository_external_id := repository_external_id repo;
                    repository_config := <["name" := full_name]> (repository_config repo) |} in
    Repository_save repo' ;;
    ret repo'
  else
    ret repo.

(** [PushEventWebhook.__call__(organization, event)] *)
Definition PushEventWebhook_call (organization : Organization) (event : PushEvent) : M unit :=
  let* repo := try_except
                 (Repository_objects_get (organization_id organization) "bitbucket"
                    (repository_uuid event))
                 DoesNotExist
                 (raise Http404) in
  let* repo := sync_name repo (repository_full_name event) in
  for_each (push_changes event) (process_change organization repo) ∅ ;;
  ret tt.

End PushEventWebhook.

(** The payload without the commits the ignore rule rejects. *)
Definition without_ignored {collaborators : Collaborators} (event : PushEvent) : PushEvent :=
  {| repository_uuid := repository_uuid event;
     repository_full_name := repository_full_name event;
     push_changes :=
       (λ change,
          {| change_commits :=
               filter (λ commit, should_ignore_commit (message commit) = false)
                 <$> change_commits change |})
       <$> push_changes event |}.

(** ** The endpoint *)

Record HttpResponse : Type := {
  status : Z
}.

Record HttpRequest : Type := {
  method : string;
  META : gmap string string;
  body : string
}.

Inductive Handler : Type :=
  | PushEventWebhook.

(** [BitbucketWebhookEndpoint._handlers] *)
Definition _handlers : gmap string Handler :=
  {[ "repo:push" := PushEventWebhook ]}.

Definition get_handler (event_type : string) : option Handler :=
  _handlers !! event_type.

(** [logger.error(event, extra=...)]: the log is outside the storage. *)
Definition logger_error (event : string) : M unit := ret tt.

(** [d[key]] for a dict: [KeyError] when the key is missing. *)
Definition getitem (d : gmap string string) (key : string) : outcome string :=
  match d !! key with
  | Some v => Return v
  | None => Raise KeyError
  end.

Section BitbucketWebhookEndpoint.
Context {collaborators : Collaborators}.

(** [handler()(organization, event)] *)
Definition Handler_call (handler : Handler) (organization : Organization)
    (event : PushEvent) : M unit :=
  match handler with
  | PushEventWebhook => PushEventWebhook_call organization event
  end.

(** [BitbucketWebhookEndpoint.post(request, organization_id)] *)
Definition post (request : HttpRequest) (organization_id : Z) : M HttpResponse :=
  fun s =>
  match Organization_objects_get_from_cache organization_id s with
  | (Raise DoesNotExist, s) =>
      (logger_error "bitbucket.webhook.invalid-organization" ;;
       ret {| status := 400 |}) s
  | (Raise e, s) => (Raise e, s)
  | (Return organization, s) =>
  if bool_decide (body request = "") then
    (logger_error "bitbucket.webhook.missing-body" ;;
     ret {| status := 400 |}) s
  else
  match getitem (META request) "HTTP_X_EVENT_KEY" with
  | Raise KeyError =>
      (logger_error "bitbucket.webhook.missing-event" ;;
       ret {| status := 400 |}) s
  | Raise e => (Raise e, s)
  | Return event_type =>
  match get_handler event_type with
  | None => (Return {| status := 204 |}, s)
  | Some handler =>
  match getitem (META request) "REMOTE_ADDR" with
  | Raise e => (Raise e, s)
  | Return remote_addr =>
  match ip_address remote_addr with
  | None => (Raise ValueError, s)
  | Some address =>
  if negb (ip_in_network address BITBUCKET_IP_RANGE) then
    (logger_error "bitbucket.webhook.invalid-ip-range" ;;
     ret {| status := 401 |}) s
  else
  match json_loads (body request) with
  | Raise JSONDecodeError =>
      (logger_error "bitbucket.webhook.invalid-json" ;;
       ret {| status := 400 |}) s
  | Raise e => (Raise e, s)
  | Return event =>
      (Handler_call handler organization event ;;
       ret {| status := 204 |}) s
  end end end end end end.

(** [BitbucketWebhookEndpoint.dispatch(request, organization_id)]: the
    base class hands a POST to [post]. *)
Definition dispatch (request : HttpRequest) (organization_id : Z) : M HttpResponse :=
  if bool_decide (method request ≠ "POST") then
    ret {| status := 405 |}
  else
    post request organization_id.

End BitbucketWebhookEndpoint.

(** ** Concurrent deliveries

    Requests share nothing but the storage, and the storage runs one
    statement at a time.  A delivery in flight issues its statements one by
    one: the lookup and the save of the Repository row, the statements of
    the author resolutions, the guarded insert of each Commit; between two
    of them the statements of other deliveries may run.  An author
    resolution in flight is a thread that stands before one of the three
    statements of [get_or_create]. *)

Inductive Resolution : Type :=
  | BeforeGet (org : Z) (email name : string)
  | BeforeCreate (org : Z) (email name : string)
  | BeforeGetAgain (org : Z) (email name : string)
  | Finished (result : outcome CommitAuthor).

(** The next statement of a resolution. *)
Definition resolution_step (t : Resolution) (s : Storage) : Resolution * Storage :=
  match t with
  | BeforeGet org email name =>
      match CommitAuthor_objects_get org email s with
      | (Return author, s') => (Finished (Return author), s')
      | (Raise DoesNotExist, s') => (BeforeCreate org email name, s')
      | (Raise e, s') => (Finished (Raise e), s')
      end
  | BeforeCreate org email name =>
      match transaction_atomic (CommitAuthor_objects_create org email name) s with
      | (Return author, s') => (Finished (Return author), s')
      | (Raise IntegrityError, s') => (BeforeGetAgain org email name, s')
      | (Raise e, s') => (Finished (Raise e), s')
      end
  | BeforeGetAgain org email name =>
      match CommitAuthor_objects_get org email s with
      | (Return author, s') => (Finished (Return author), s')
      | (Raise DoesNotExist, s') => (Finished (Raise IntegrityError), s')
      | (Raise e, s') => (Finished (Raise e), s')
      end
  | Finished result => (Finished result, s)
  end.

Section Deliveries.
Context {collaborators : Collaborators}.

(** One statement of some delivery in flight: a resolution starts, a
    resolution runs its next statement, a Commit is inserted under its
    guard, a Repository row is saved.  (The lookup of the Repository row
    changes nothing and needs no move.) *)
Inductive statement_step : list Resolution * Storage → list Resolution * Storage → Prop :=
  | step_start threads s org email name :
      statement_step (threads, s) (threads ++ [BeforeGet org email name], s)
  | step_resolution threads s i t t' s' :
      threads !! i = Some t →
      resolution_step t s = (t', s') →
      statement_step (threads, s) (<[i := t']> threads, s')
  | step_insert threads s organization repo commit author out s' :
      insert_commit organization repo commit author s = (out, s') →
      statement_step (threads, s) (threads, s')
  | step_save threads s repo out s' :
      Repository_save repo s = (out, s') →
      statement_step (threads, s) (threads, s').

(** One move of the system: a statement, or a whole delivery with nothing in
    between. *)
Inductive system_step : list Resolution * Storage → list Resolution * Storage → Prop :=
  | step_statement x y :
      statement_step x y →
      system_step x y
  | step_delivery threads s organization event out s' :
      PushEventWebhook_call organization event s = (out, s') →
      system_step (threads, s) (threads, s').

End Deliveries.

(** ** Consistency of the storage *)

(** The uniqueness constraint of CommitAuthor: at most one row for an
    organization and an email. *)
Definition authors_unique (s : Storage) : Prop :=
  ∀ org email,
    (length (filter (author_matches org email) (commit_authors s)) ≤ 1)%nat.

(** Primary keys of Repository rows are distinct. *)
Definition repository_ids_unique (s : Storage) : Prop :=
  NoDup (repository_id <$> repositories s).

Definition has_commit (repo : Z) (key : string) (s : Storage) : Prop :=
  Exists (commit_matches repo key) (commits s).

Definition has_author (org : Z) (email : string) (s : Storage) : Prop :=
  Exists (author_matches org email) (commit_authors s).

(** Several CommitAuthor rows for one (organization, email): what
    [objects.get] answers with [MultipleObjectsReturned]. *)
Definition ambiguous (org : Z) (email : string) (s : Storage) : Prop :=
  (2 ≤ length (filter (author_matches org email) (commit_authors s)))%nat.

(** [s'] is [s] with rows appended to CommitAuthor and Commit, nothing else
    touched, and no (organization, email) made ambiguous. *)
Definition grows (s s' : Storage) : Prop :=
  organizations s' = organizations s ∧
  repositories s' = repositories s ∧
  (∃ rows, commit_authors s' = commit_authors s ++ rows) ∧
  (∃ rows, commits s' = commits s ++ rows) ∧
  (∀ org email, ambiguous org email s' ↔ ambiguous org email s).

(** [t] holds every commit key of the repository and every author address
    of the organization that [s] holds. *)
Definition covers (org repo : Z) (s t : Storage) : Prop :=
  (∀ key, has_commit repo key s → has_commit repo key t) ∧
  (∀ email, has_author org email s → has_author org email t).

(** A step of a loop of the handler replays: run on a storage [t] that
    covers what the step leaves when run on [s], with a memo of the same
    addresses and the same ambiguous addresses in [s] and [t], it ends the
    same way and leaves [t] as it is. *)
Definition replays (org repo : Z) {A : Type}
    (body : gmap string CommitAuthor → A → M (gmap string CommitAuthor)) : Prop :=
  ∀ x m n s t,
    dom m = dom n →
    (∀ email, ambiguous org email s ↔ ambiguous org email t) →
    covers org repo (body m x s).2 t →
    match (body m x s).1 with
    | Return m1 => ∃ n1, body n x t = (Return n1, t) ∧ dom m1 = dom n1
    | Raise e => body n x t = (Raise e, t)
    end.

(** [c in text] *)
Fixpoint occurs (c : ascii) (text : string) : bool :=
  match text with
  | EmptyString => false
  | String c' r => bool_decide (c' = c) || occurs c r
  end.

(** ** Sample data *)

(** [needle in text] *)
Fixpoint startswith (needle text : string) : bool :=
  match needle, text with
  | EmptyString, _ => true
  | String a n, String b t => bool_decide (a = b) && startswith n t
  | String _ _, EmptyString => false
  end.

Fixpoint contains (needle text : string) : bool :=
  startswith needle text ||
  match text with
  | EmptyString => false
  | String _ t => contains needle t
  end.

(** The collaborators on the inputs used below: the ignore rule of the
    platform (['#skipsentry' in message]) and the values of the two parsers
    on the texts that occur in the examples.  No example decodes a body. *)
Definition sample_collaborators : Collaborators :=
  {| should_ignore_commit := contains "#skipsentry";
     parse_date_utc := λ text,
       if decide (text = "2021-01-01T00:00:00Z") then Some 1609459200 else None;
     ip_address := λ text,
       if decide (text = "104.192.143.7") then Some (IPv4Address (ipv4 104 192 143 7))
       else if decide (text = "8.8.8.8") then Some (IPv4Address (ipv4 8 8 8 8))
       else None;
     json_loads := λ _, Raise JSONDecodeError |}.

Definition sample_organization : Organization := {| organization_id := 1 |}.

Definition sample_repository : Repository :=
  {| repository_id := 10;
     repository_organization_id := 1;
     repository_provider := "bitbucket";
     repository_external_id := "abc-123";
     repository_config := {[ "name" := "old/name" ]} |}.

Definition sample_storage : Storage :=
  {| organizations := [sample_organization];
     repositories := [sample_repository];
     commit_authors := [];
     commits := [] |}.

Definition sample_commit : CommitPayload :=
  {| hash := "deadbeef"; message := "fix bug";
     author_raw := "Jane <jane@x.com>"; date := "2021-01-01T00:00:00Z" |}.

Definition sample_event : PushEvent :=
  {| repository_uuid := "abc-123";
     repository_full_name := "new/name";
     push_changes := [ {| change_commits := Some [sample_commit] |} ] |}.

(** A commit whose author line carries no address. *)
Definition nameless_commit : CommitPayload :=
  {| hash := "0badc0de"; message := "tidy up";
     author_raw := "Jane Doe"; date := "2021-01-01T00:00:00Z" |}.

(** The storage after [sample_commit] was ingested without an author. *)
Definition storage_with_commit : Storage :=
  set_commits
    [ {| commit_id := 1; commit_repository_id := 10; commit_organization_id := 1;
         commit_key := "deadbeef"; commit_message := "fix bug";
         commit_author := None; commit_date_added := 1609459200 |} ]
    sample_storage.

Definition long_email : string :=
  "aaaaaaaaaaaaaaaaaaaaaaaaaaaaaaaaaaaaaaaaaaaaaaaaaaaaaaaaaaaaaaaaaaaa@example.com".

Definition long_email_commit : CommitPayload :=
  {| hash := "cafe"; message := "long";
     author_raw := "Bot <" +:+ long_email +:+ ">"; date := "2021-01-01T00:00:00Z" |}.

Definition outside_request : HttpRequest :=
  {| method := "POST";
     META := {[ "HTTP_X_EVENT_KEY" := "repo:push"; "REMOTE_ADDR" := "8.8.8.8" ]};
     body := "{}" |}.


(** ** Notions for the further properties *)


(** [raw.split('<')[0].strip()], the display name given to a new author. *)
Definition author_display_name (raw : string) : string :=
  strip (split_lt_head raw).

(** The commits of a payload, in the order the two loops visit them. *)
Definition commits_of (event : PushEvent) : list CommitPayload :=
  concat ((λ change, default [] (change_commits change)) <$> push_changes event).

(** The uniqueness constraint of Commit: at most one row for a repository
    and a key. *)
Definition commits_unique (s : Storage) : Prop :=
  ∀ repo key, (length (filter (commit_matches repo key) (commits s)) ≤ 1)%nat.

(** Every entry of the memo of a request is the one stored row of its
    organization and address. *)
Definition memo_consistent (org : Z) (authors : gmap string CommitAuthor)
    (s : Storage) : Prop :=
  ∀ email author,
    authors !! email = Some author →
    filter (author_matches org email) (commit_authors s) = [author].

(** Every author a Commit row points at is a stored CommitAuthor row. *)
Definition commit_authors_stored (s : Storage) : Prop :=
  ∀ commit author,
    commit ∈ commits s → commit_author commit = Some author →
    author ∈ commit_authors s.

(** No stored address is longer than the 75 characters of its column. *)
Definition emails_fit (s : Storage) : Prop :=
  ∀ author, author ∈ commit_authors s →
    Z.of_nat (String.length (author_email author)) ≤ 75.

(** The body of the sample delivery as the provider sends it. *)
Definition quoted (text : string) : string :=
  String "034" text +:+ String "034" "".

Definition sample_body : string :=
  "{" +:+ quoted "repository" +:+ ": {" +:+ quoted "uuid" +:+ ": " +:+ quoted "abc-123"
  +:+ ", " +:+ quoted "full_name" +:+ ": " +:+ quoted "new/name" +:+ "}, "
  +:+ quoted "push" +:+ ": {" +:+ quoted "changes" +:+ ": [{" +:+ quoted "commits"
  +:+ ": [{" +:+ quoted "hash" +:+ ": " +:+ quoted "deadbeef" +:+ ", "
  +:+ quoted "message" +:+ ": " +:+ quoted "fix bug" +:+ ", "
  +:+ quoted "author" +:+ ": {" +:+ quoted "raw" +:+ ": " +:+ quoted "Jane <jane@x.com>"
  +:+ "}, " +:+ quoted "date" +:+ ": " +:+ quoted "2021-01-01T00:00:00Z" +:+ "}]}]}}".

(** The sample collaborators with a decoder that knows the sample body. *)
Definition decoding_collaborators : Collaborators :=
  {| should_ignore_commit := should_ignore_commit (Collaborators := sample_collaborators);
     parse_date_utc := parse_date_utc (Collaborators := sample_collaborators);
     ip_address := ip_address (Collaborators := sample_collaborators);
     json_loads := λ text,
       if decide (text = sample_body) then Return sample_event
       else Raise JSONDecodeError |}.

Definition inside_request : HttpRequest :=
  {| method := "POST";
     META := {[ "HTTP_X_EVENT_KEY" := "repo:push"; "REMOTE_ADDR" := "104.192.143.7" ]};
     body := sample_body |}.

(** [s'] is [s] with CommitAuthor rows of the organization, of addresses
    that fit their column, and Commit rows of the organization and the
    repository appended, and nothing else touched. *)
Definition appends_for (org repo : Z) (s s' : Storage) : Prop :=
  organizations s' = organizations s ∧
  repositories s' = repositories s ∧
  (∃ rows, commit_authors s' = commit_authors s ++ rows ∧
           Forall (λ a, author_organization_id a = org ∧
                        Z.of_nat (String.length (author_email a)) ≤ 75) rows) ∧
  (∃ rows, commits s' = commits s ++ rows ∧
           Forall (λ c, commit_organization_id c = org ∧
                        commit_repository_id c = repo) rows).

(** How a loop ended and the storage it left, without the memo. *)
Definition without_memo {A : Type} (result : outcome A * Storage) : outcome unit * Storage :=
  match result with
  | (Return _, s) => (Return tt, s)
  | (Raise e, s) => (Raise e, s)
  end.

(** * Properties *)

(** ** Text *)

Lemma app_cons (c : ascii) (a b : string) : String c a +:+ b = String c (a +:+ b).
Proof. reflexivity. Qed.

Lemma app_empty (b : string) : "" +:+ b = b.
Proof. reflexivity. Qed.

Lemma occurs_cons_false (c c' : ascii) (r : string) :
  occurs c (String c' r) = false → c' ≠ c ∧ occurs c r = false.
Proof.
  simpl. intros Hor. apply orb_false_iff in Hor as [Hc Hr].
  apply bool_decide_eq_false in Hc. done.
Qed.

(** ** The regular expression *)

Example parse_jane :
  parse_raw_user "Jane Doe <jane@example.com>" = Return "jane@example.com".
Proof. reflexivity. Qed.

Example parse_trailing_line_feed :
  parse_raw_user ("Jane <j@x.com>" +:+ String LF "") = Return "j@x.com".
Proof. reflexivity. Qed.

Example parse_empty_brackets : parse_raw_user "<>" = Return "".
Proof. reflexivity. Qed.

(** The greedy star followed by [(?=>$)] keeps a whole line that a single
    closing bracket ends. *)
Lemma dot_star_line (mid : string) :
  occurs LF mid = false → dot_star (mid +:+ ">") = Some mid.
Proof.
  induction mid as [|c mid IH]; intros Hlf.
  - reflexivity.
  - apply occurs_cons_false in Hlf as [Hc Hmid].
    rewrite app_cons. cbn [dot_star].
    rewrite bool_decide_eq_false_2 by done.
    by rewrite IH.
Qed.

(** The scan passes over text that has no opening bracket. *)
Lemma search_before_bracket (pre rest : string) (prev : option ascii) :
  prev ≠ Some "<"%char → occurs "<" pre = false →
  search prev (pre +:+ String "<" rest) = search (Some "<"%char) rest.
Proof.
  revert prev. induction pre as [|c pre IH]; intros prev Hprev Hpre.
  - rewrite app_empty. cbn [search].
    rewrite (bool_decide_eq_false_2 _ Hprev). done.
  - apply occurs_cons_false in Hpre as [Hc Hpre].
    rewrite app_cons. cbn [search].
    rewrite (bool_decide_eq_false_2 _ Hprev).
    apply IH; [congruence | done].
Qed.

(** Just after an opening bracket the scan stops at the first match. *)
Lemma search_after_bracket (rest m : string) :
  dot_star rest = Some m → search (Some "<"%char) rest = Some m.
Proof.
  intros Hm. destruct rest; cbn [search];
    rewrite bool_decide_eq_true_2 by done; by rewrite Hm.
Qed.

Lemma search_no_bracket (raw : string) (prev : option ascii) :
  prev ≠ Some "<"%char → occurs "<" raw = false → search prev raw = None.
Proof.
  revert prev. induction raw as [|c raw IH]; intros prev Hprev Hraw.
  - cbn [search]. by rewrite (bool_decide_eq_false_2 _ Hprev).
  - apply occurs_cons_false in Hraw as [Hc Hraw].
    cbn [search]. rewrite (bool_decide_eq_false_2 _ Hprev).
    apply IH; [congruence | done].
Qed.

(** Without an opening bracket there is no match, and [group] is asked of
    [None]. *)
Lemma parse_raw_user_no_bracket (raw : string) :
  occurs "<" raw = false → parse_raw_user raw = Raise AttributeError.
Proof.
  intros Hraw. unfold parse_raw_user, re_search.
  by rewrite search_no_bracket.
Qed.

(** C4, as the code has it: for every raw author string that contains a
    ['<'] and ends with ['>'], written [pre ++ "<" ++ mid ++ ">"] with
    [pre] the text before its first ['<'], and with no line feed in [mid],
    the extracted email is [mid]: the text strictly between the first ['<']
    and the trailing ['>']. *)
Theorem parse_raw_user_first_bracket (pre mid : string) :
  occurs "<" pre = false →
  occurs LF mid = false →
  parse_raw_user (pre +:+ "<" +:+ mid +:+ ">") = Return mid.
Proof.
  intros Hpre Hmid. unfold parse_raw_user, re_search.
  change ("<" +:+ mid +:+ ">") with (String "<" (mid +:+ ">")).
  rewrite search_before_bracket by done.
  by rewrite (search_after_bracket _ mid) by by apply dot_star_line.
Qed.

Lemma parse_raw_user_first_bracket_witness :
  occurs "<" "Jane Doe " = false ∧ occurs LF "jane@example.com" = false ∧
  parse_raw_user ("Jane Doe " +:+ "<" +:+ "jane@example.com" +:+ ">")
    = Return "jane@example.com".
Proof.
  split; [reflexivity|]. split; [reflexivity|].
  apply parse_raw_user_first_bracket; reflexivity.
Defined.

(** C4, as the specification words it (the text between the LAST ['<'] and
    the trailing ['>']), fails: in ["A <b> <c>"] the text after the last
    ['<'] is ["c"], and the match starts after the first ['<'].  A line feed
    between the brackets leaves no match at all. *)
Lemma parse_raw_user_last_bracket_refuted :
  "A <b> <c>" = "A <b> " +:+ "<" +:+ "c" +:+ ">" ∧
  occurs "<" "c" = false ∧
  parse_raw_user "A <b> <c>" = Return "b> <c" ∧
  parse_raw_user "A <b> <c>" ≠ Return "c" ∧
  parse_raw_user ("<a" +:+ String LF "b" +:+ ">") = Raise AttributeError.
Proof. repeat split; try reflexivity. discriminate. Qed.

(** ** The ORM calls *)

Lemma Exists_filter {A : Type} (P : A → Prop) `{!∀ x, Decision (P x)} (l : list A) :
  Exists P l ↔ filter P l ≠ [].
Proof.
  rewrite Exists_exists. split.
  - intros (x & Hx & HP) Hnil.
    by apply (filter_nil_not_elem_of P l x).
  - intros Hne. destruct (filter P l) as [|x k] eqn:Hf; [done|].
    exists x. assert (x ∈ filter P l) as Hin by (rewrite Hf; left).
    apply list_elem_of_filter in Hin as [HP Hin]. done.
Qed.

(** What [get_or_create] does when nothing runs between its statements: it
    returns the one matching row, inserts a row when none matches, and
    raises when several match. *)
Lemma get_or_create_run (org : Z) (email name : string) (s : Storage) :
  CommitAuthor_objects_get_or_create org email name s =
  match filter (author_matches org email) (commit_authors s) with
  | [] =>
      let row := {| author_id := next_id author_id (commit_authors s);
                    author_organization_id := org;
                    author_email := email;
                    author_name := name |} in
      (Return row, set_commit_authors (commit_authors s ++ [row]) s)
  | [author] => (Return author, s)
  | _ :: _ :: _ => (Raise MultipleObjectsReturned, s)
  end.
Proof.
  unfold CommitAuthor_objects_get_or_create, try_except, transaction_atomic,
    CommitAuthor_objects_get, CommitAuthor_objects_create.
  destruct (filter _ _) as [|a [|b k]] eqn:Hf; cbn; [|done..].
  rewrite decide_True by done.
  destruct (decide (Exists _ _)) as [Hex|_]; [|done].
  by apply (Exists_filter (author_matches org email)) in Hex.
Qed.

Section Handler_properties.
Context {collaborators : Collaborators}.

(** The three ways [insert_commit] ends: the date does not parse; the key
    is taken and the [IntegrityError] is passed over; the row is written. *)
Lemma insert_commit_run organization repo commit author s :
  insert_commit organization repo commit author s =
  match parse_date_utc (date commit) with
  | None => (Raise ValueError, s)
  | Some date_added =>
      if decide (has_commit (repository_id repo) (hash commit) s) then
        (Return tt, s)
      else
        (Return tt,
         set_commits (commits s ++ [commit_row organization repo commit author date_added s]) s)
  end.
Proof.
  unfold insert_commit, try_except, transaction_atomic, bind, lift.
  destruct (parse_date_utc (date commit)) as [t|]; [|done].
  unfold Commit_objects_create, has_commit.
  destruct (decide (Exists _ _)); done.
Qed.

Lemma resolve_author_run organization raw author_email authors s :
  resolve_author organization raw author_email authors s =
  if bool_decide (75 < Z.of_nat (String.length author_email)) then
    (Return (None, authors), s)
  else
    match authors !! author_email with
    | Some author => (Return (Some author, authors), s)
    | None =>
        match CommitAuthor_objects_get_or_create (organization_id organization)
                author_email (strip (split_lt_head raw)) s with
        | (Return author, s1) => (Return (Some author, <[author_email := author]> authors), s1)
        | (Raise e, s1) => (Raise e, s1)
        end
    end.
Proof.
  unfold resolve_author. case_bool_decide; [done|].
  destruct (authors !! author_email); [done|].
  unfold bind. by destruct (CommitAuthor_objects_get_or_create _ _ _ s) as [[]].
Qed.

Lemma process_commit_run organization repo authors commit s :
  process_commit organization repo authors commit s =
  if should_ignore_commit (message commit) then (Return authors, s) else
  match parse_raw_user (author_raw commit) with
  | Raise e => (Raise e, s)
  | Return author_email =>
      match resolve_author organization (author_raw commit) author_email authors s with
      | (Raise e, s1) => (Raise e, s1)
      | (Return (author, authors'), s1) =>
          match insert_commit organization repo commit author s1 with
          | (Return _, s2) => (Return authors', s2)
          | (Raise e, s2) => (Raise e, s2)
          end
      end
  end.
Proof.
  unfold process_commit. destruct (should_ignore_commit _); [done|].
  unfold bind, lift. destruct (parse_raw_user _); [|done].
  destruct (resolve_author _ _ _ _ s) as [[[author authors']|] s1]; [|done].
  by destruct (insert_commit _ _ _ _ s1) as [[]].
Qed.

(** *** Loops *)

Lemma for_each_app {A S : Type} (xs ys : list A) (body : S → A → M S) acc s :
  for_each (xs ++ ys) body acc s =
  (let* acc' := for_each xs body acc in for_each ys body acc') s.
Proof.
  revert acc s. induction xs as [|x xs IH]; intros acc s; [done|].
  cbn [app for_each]. unfold bind.
  destruct (body acc x s) as [[acc'|e] s']; [|done].
  rewrite IH. done.
Qed.

(** A step that returns its accumulator and leaves the storage alone can
    be taken out of the loop. *)
Lemma for_each_skip {A S : Type} (xs ys : list A) (x : A) (body : S → A → M S) acc s :
  (∀ acc s, body acc x s = (Return acc, s)) →
  for_each (xs ++ x :: ys) body acc s = for_each (xs ++ ys) body acc s.
Proof.
  intros Hskip. rewrite !for_each_app. unfold bind.
  destruct (for_each xs body acc s) as [[acc'|e] s']; [|done].
  cbn [for_each]. unfold bind. by rewrite Hskip.
Qed.

Lemma for_each_filter {A S : Type} (P : A → Prop) `{!∀ x, Decision (P x)}
    (xs : list A) (body : S → A → M S) acc s :
  (∀ x acc s, ¬ P x → body acc x s = (Return acc, s)) →
  for_each (filter P xs) body acc s = for_each xs body acc s.
Proof.
  intros Hskip. revert acc s. induction xs as [|x xs IH]; intros acc s; [done|].
  rewrite filter_cons. destruct (decide (P x)) as [HP|HP].
  - cbn [for_each]. unfold bind.
    destruct (body acc x s) as [[acc'|e] s']; [|done]. apply IH.
  - cbn [for_each]. unfold bind. rewrite (Hskip _ _ _ HP). apply IH.
Qed.

(** *** Skipped commits and empty change-sets *)

Lemma process_commit_ignored organization repo authors commit s :
  should_ignore_commit (message commit) = true →
  process_commit organization repo authors commit s = (Return authors, s).
Proof. intros Hig. unfold process_commit. by rewrite Hig. Qed.

Lemma process_change_without_ignored organization repo authors change s :
  process_change organization repo authors
    {| change_commits :=
         filter (λ commit, should_ignore_commit (message commit) = false)
           <$> change_commits change |} s =
  process_change organization repo authors change s.
Proof.
  unfold process_change. destruct change as [[commits|]]; [|done].
  cbn. apply for_each_filter. intros commit acc s' Hig.
  apply process_commit_ignored. by destruct (should_ignore_commit _).
Qed.

(** C9: for every commit whose message the ignore rule matches, the step
    of the handler for that commit hands back the memo of authors as it
    was and the storage as it was: no CommitAuthor lookup or creation, no
    Commit row, nothing else touched.  A delivery therefore does exactly
    what it does on the payload with such commits removed. *)
Theorem ignored_commit_is_skipped organization repo authors commit s :
  should_ignore_commit (message commit) = true →
  process_commit organization repo authors commit s = (Return authors, s) ∧
  (∀ before after acc s0,
     for_each (before ++ commit :: after) (process_commit organization repo) acc s0 =
     for_each (before ++ after) (process_commit organization repo) acc s0) ∧
  (∀ org event s0,
     PushEventWebhook_call org (without_ignored event) s0 =
     PushEventWebhook_call org event s0).
Proof.
  intros Hig. split; [by apply process_commit_ignored|]. split.
  - intros before after acc s0. apply for_each_skip.
    intros acc' s'. by apply process_commit_ignored.
  - intros org event s0. unfold PushEventWebhook_call. cbn [without_ignored
      repository_uuid repository_full_name push_changes].
    unfold bind.
    destruct (try_except _ _ _ s0) as [[repo0|e] s1]; [|done].
    unfold bind.
    destruct (sync_name _ _ s1) as [[repo1|e] s2]; [|done].
    unfold bind.
    assert (∀ changes acc s,
      for_each ((λ change, {| change_commits :=
           filter (λ commit, should_ignore_commit (message commit) = false)
             <$> change_commits change |}) <$> changes)
        (process_change org repo1) acc s =
      for_each changes (process_change org repo1) acc s) as ->; [|done].
    induction changes as [|change changes IH]; intros acc s'; [done|].
    cbn [fmap list_fmap for_each]. unfold bind.
    rewrite process_change_without_ignored.
    destruct (process_change _ _ _ change s') as [[acc'|e] s'']; [|done].
    apply IH.
Qed.

(** C10: a change-set without the [commits] key is a change-set of no
    commits: its step of the outer loop raises nothing, writes nothing and
    hands the memo on, and the delivery goes on with the change-sets that
    follow, exactly as on the payload without that change-set. *)
Theorem change_without_commits_is_empty organization repo authors s event_uuid
    full_name before after :
  process_change organization repo authors {| change_commits := None |} s
    = (Return authors, s) ∧
  process_change organization repo authors {| change_commits := None |} s
    = process_change organization repo authors {| change_commits := Some [] |} s ∧
  PushEventWebhook_call organization
    {| repository_uuid := event_uuid; repository_full_name := full_name;
       push_changes := before ++ {| change_commits := None |} :: after |} s =
  PushEventWebhook_call organization
    {| repository_uuid := event_uuid; repository_full_name := full_name;
       push_changes := before ++ after |} s.
Proof.
  split; [done|]. split; [done|].
  unfold PushEventWebhook_call. cbn [repository_uuid repository_full_name push_changes].
  unfold bind.
  destruct (try_except _ _ _ s) as [[repo0|e] s1]; [|done].
  unfold bind.
  destruct (sync_name _ _ s1) as [[repo1|e] s2]; [|done].
  unfold bind.
  by rewrite for_each_skip.
Qed.

(** *** Commits that cannot have an author *)

(** C7: for every commit the handler processes whose extracted author
    email is longer than 75 characters, the step for that commit leaves the
    CommitAuthor rows and the memo alone (no lookup, no creation) and
    attempts the insert with a null author: it can only end normally or,
    on a date that does not parse, with the [ValueError] of the date.  With
    a date that parses it ends normally, the commit is in the storage
    afterwards, and when its key was new the row written is the one with
    the null author. *)
Theorem oversized_email_null_author organization repo authors commit author_email s :
  should_ignore_commit (message commit) = false →
  parse_raw_user (author_raw commit) = Return author_email →
  75 < Z.of_nat (String.length author_email) →
  let result := process_commit organization repo authors commit s in
  commit_authors result.2 = commit_authors s ∧
  repositories result.2 = repositories s ∧
  (result.1 = Return authors ∨
   result.1 = Raise ValueError ∧ parse_date_utc (date commit) = None) ∧
  (∀ date_added, parse_date_utc (date commit) = Some date_added →
     result.1 = Return authors ∧
     has_commit (repository_id repo) (hash commit) result.2 ∧
     (¬ has_commit (repository_id repo) (hash commit) s →
        commits result.2 =
        commits s ++ [commit_row organization repo commit None date_added s])).
Proof.
  intros Hig Hparse Hlong result. subst result.
  rewrite process_commit_run, Hig, Hparse, resolve_author_run.
  rewrite bool_decide_eq_true_2 by done.
  rewrite insert_commit_run.
  destruct (parse_date_utc (date commit)) as [t|]; cbn.
  - destruct (decide (has_commit _ _ s)) as [Hhas|Hnew]; cbn.
    + split_and!; [done|done|by left|]. intros ? [= <-]. done.
    + split_and!; [done|done|by left|]. intros ? [= <-].
      split_and!; [done| |done].
      unfold has_commit. cbn. apply Exists_app. right. by left.
  - split_and!; [done|done|by right|]. intros ? [=].
Qed.

(** *** The atomic unit *)

(** C2, as the code has it: the atomic unit holds the Commit insert alone;
    the author is resolved before it, outside.  For every commit the
    handler processes, once author resolution has ended in storage [s1]:
    resolution wrote no Commit row; if the insert is refused (the key is
    taken), the refusal is absorbed and the storage stays exactly [s1]; if
    the date does not parse, the [ValueError] goes on and the storage stays
    exactly [s1].  Either way a CommitAuthor row that resolution created
    for this commit is still there. *)
Theorem failed_insert_keeps_resolved_author organization repo authors commit
    author_email author authors' s s1 :
  should_ignore_commit (message commit) = false →
  parse_raw_user (author_raw commit) = Return author_email →
  resolve_author organization (author_raw commit) author_email authors s
    = (Return (author, authors'), s1) →
  commits s1 = commits s ∧
  (∀ date_added, parse_date_utc (date commit) = Some date_added →
     has_commit (repository_id repo) (hash commit) s1 →
     (Commit_objects_create (repository_id repo) (organization_id organization)
        (hash commit) (message commit) author date_added s1).1 = Raise IntegrityError ∧
     process_commit organization repo authors commit s = (Return authors', s1)) ∧
  (parse_date_utc (date commit) = None →
     process_commit organization repo authors commit s = (Raise ValueError, s1)).
Proof.
  intros Hig Hparse Hres. split; [|split].
  - rewrite resolve_author_run in Hres. case_bool_decide; [by simplify_eq|].
    destruct (authors !! author_email); [by simplify_eq|].
    rewrite get_or_create_run in Hres.
    destruct (filter _ _) as [|a [|b k]]; cbn in Hres; by simplify_eq.
  - intros t Ht Hhas. split.
    + unfold Commit_objects_create. by rewrite decide_True.
    + rewrite process_commit_run, Hig, Hparse, Hres, insert_commit_run, Ht.
      by rewrite decide_True.
  - intros Hdate.
    by rewrite process_commit_run, Hig, Hparse, Hres, insert_commit_run, Hdate.
Qed.

End Handler_properties.

(** ** The sample delivery *)

(** The end-to-end scenario: the name is brought up to date, one author and
    one commit are written; a second delivery changes nothing. *)
Example sample_delivery :
  let first := PushEventWebhook_call (collaborators := sample_collaborators)
                 sample_organization sample_event sample_storage in
  first.1 = Return tt ∧
  (repository_config <$> repositories first.2) = [ {[ "name" := "new/name" ]} ] ∧
  (author_email <$> commit_authors first.2) = ["jane@x.com"] ∧
  (author_name <$> commit_authors first.2) = ["Jane"] ∧
  (commit_key <$> commits first.2) = ["deadbeef"] ∧
  PushEventWebhook_call (collaborators := sample_collaborators)
    sample_organization sample_event first.2 = (Return tt, first.2).
Proof. vm_compute. repeat split. Qed.

Lemma oversized_email_null_author_witness :
  let result := process_commit (collaborators := sample_collaborators) sample_organization
                  sample_repository ∅ long_email_commit sample_storage in
  result.1 = Return ∅ ∧ (commit_author <$> commits result.2) = [None].
Proof.
  pose proof (oversized_email_null_author (collaborators := sample_collaborators)
    sample_organization sample_repository ∅ long_email_commit long_email sample_storage
    eq_refl eq_refl ltac:(vm_compute; reflexivity)) as (_ & _ & _ & Hdate).
  destruct (Hdate 1609459200 eq_refl) as (Hout & _ & Hrow).
  split; [exact Hout|].
  rewrite Hrow; [reflexivity|].
  unfold has_commit. cbn. by intros ?%Exists_nil.
Defined.

Lemma ignored_commit_is_skipped_witness :
  let commit := {| hash := "feed"; message := "wip #skipsentry";
                   author_raw := "Jane Doe"; date := "yesterday" |} in
  process_commit (collaborators := sample_collaborators) sample_organization sample_repository ∅
    commit sample_storage = (Return ∅, sample_storage).
Proof.
  intros commit.
  exact (proj1 (@ignored_commit_is_skipped sample_collaborators sample_organization
                  sample_repository ∅ commit sample_storage eq_refl)).
Defined.

(** C2, as the specification words it (author resolution and insert in one
    atomic unit, no new author row left behind when the insert fails), fails:
    with the commit ["deadbeef"] stored and no author row, a delivery of that
    commit by ["Jane <jane@x.com>"] creates the author row, has its insert
    refused, and leaves the author row in the storage. *)
Lemma author_row_outlives_refused_insert :
  let jane := {| author_id := 1; author_organization_id := 1;
                 author_email := "jane@x.com"; author_name := "Jane" |} in
  let resolved := resolve_author sample_organization
                    "Jane <jane@x.com>" "jane@x.com" ∅ storage_with_commit in
  let final := process_commit (collaborators := sample_collaborators) sample_organization
                sample_repository ∅ sample_commit storage_with_commit in
  commit_authors storage_with_commit = [] ∧
  resolved.1 = Return (Some jane, {[ "jane@x.com" := jane ]}) ∧
  (Commit_objects_create 10 1 "deadbeef" "fix bug" (Some jane) 1609459200 resolved.2).1
    = Raise IntegrityError ∧
  final.1 = Return {[ "jane@x.com" := jane ]} ∧
  commits final.2 = commits storage_with_commit ∧
  commit_authors final.2 = [jane] ∧
  commit_authors final.2 ≠ commit_authors storage_with_commit.
Proof. vm_compute. repeat split. discriminate. Qed.

Lemma failed_insert_keeps_resolved_author_witness :
  let jane := {| author_id := 1; author_organization_id := 1;
                 author_email := "jane@x.com"; author_name := "Jane" |} in
  process_commit (collaborators := sample_collaborators) sample_organization sample_repository ∅
    sample_commit storage_with_commit
  = (Return {[ "jane@x.com" := jane ]}, set_commit_authors [jane] storage_with_commit).
Proof.
  intros jane.
  assert (resolve_author sample_organization (author_raw sample_commit) "jane@x.com" ∅
            storage_with_commit
          = (Return (Some jane, {[ "jane@x.com" := jane ]}),
             set_commit_authors [jane] storage_with_commit)) as Hres
    by (vm_compute; reflexivity).
  destruct (failed_insert_keeps_resolved_author (collaborators := sample_collaborators)
    sample_organization sample_repository ∅ sample_commit "jane@x.com" _ _ _ _
    eq_refl eq_refl Hres) as (_ & Hrefused & _).
  apply (Hrefused 1609459200 eq_refl).
  unfold has_commit. cbn. left. done.
Defined.

(** C3 on the code: an author line without brackets.  [parse_raw_user]
    raises [AttributeError]; nothing in the handler catches it, so the commit
    is not stored with a null author: it is not stored, and the delivery ends
    with the exception. *)
Lemma author_without_brackets_raises :
  parse_raw_user "Jane Doe" = Raise AttributeError ∧
  process_commit (collaborators := sample_collaborators) sample_organization sample_repository ∅
    nameless_commit sample_storage = (Raise AttributeError, sample_storage) ∧
  let delivery := PushEventWebhook_call (collaborators := sample_collaborators) sample_organization
        {| repository_uuid := "abc-123"; repository_full_name := "old/name";
           push_changes := [ {| change_commits := Some [nameless_commit] |} ] |}
        sample_storage in
  delivery = (Raise AttributeError, sample_storage).
Proof. vm_compute. repeat split. Qed.

(** C6 on the code: the failure of one commit ends the delivery.  The commit
    after an author line without brackets is never reached, though the same
    commit alone is ingested. *)
Lemma bad_author_aborts_remaining_commits :
  let deliver commits :=
    PushEventWebhook_call (collaborators := sample_collaborators) sample_organization
      {| repository_uuid := "abc-123"; repository_full_name := "old/name";
         push_changes := [ {| change_commits := Some commits |} ] |}
      sample_storage in
  (deliver [nameless_commit; sample_commit]).1 = Raise AttributeError ∧
  commits (deliver [nameless_commit; sample_commit]).2 = [] ∧
  (deliver [sample_commit]).1 = Return tt ∧
  (commit_key <$> commits (deliver [sample_commit]).2) = ["deadbeef"].
Proof. vm_compute. repeat split. Qed.

(** ** The endpoint *)

Section Endpoint_properties.
Context {collaborators : Collaborators}.

(** An event type without a handler is answered before the address is
    looked at, whatever the address. *)
Lemma unhandled_event_type request org_id s organization event_type :
  (Organization_objects_get_from_cache org_id s).1 = Return organization →
  body request ≠ "" →
  META request !! "HTTP_X_EVENT_KEY" = Some event_type →
  get_handler event_type = None →
  post request org_id s = (Return {| status := 204 |}, s).
Proof.
  intros Horg Hbody Hkey Hnone. unfold post.
  unfold Organization_objects_get_from_cache in *. cbn in Horg. rewrite Horg.
  rewrite bool_decide_eq_false_2 by done.
  unfold getitem. by rewrite Hkey, Hnone.
Qed.

(** C5: for every request whose source address lies outside the
    provider's block, [post] writes nothing; and once the request has
    passed the checks that come first (the organization resolves, the body
    is not empty, the event-type header is there), it is answered 401 when
    the event type has a handler and 204 when it has none. *)
Theorem outside_address_is_gated request org_id s remote_addr address :
  META request !! "REMOTE_ADDR" = Some remote_addr →
  ip_address remote_addr = Some address →
  ip_in_network address BITBUCKET_IP_RANGE = false →
  (post request org_id s).2 = s ∧
  ∀ organization event_type,
    (Organization_objects_get_from_cache org_id s).1 = Return organization →
    body request ≠ "" →
    META request !! "HTTP_X_EVENT_KEY" = Some event_type →
    (is_Some (get_handler event_type) →
       post request org_id s = (Return {| status := 401 |}, s)) ∧
    (get_handler event_type = None →
       post request org_id s = (Return {| status := 204 |}, s)).
Proof.
  intros Haddr Hip Hout. split.
  - unfold post, Organization_objects_get_from_cache, getitem.
    destruct (objects_get _) as [organization|[]]; try done.
    case_bool_decide; [done|].
    destruct (META request !! "HTTP_X_EVENT_KEY") as [event_type|]; [|done].
    destruct (get_handler event_type); [|done].
    by rewrite Haddr, Hip, Hout.
  - intros organization event_type Horg Hbody Hkey. split.
    + intros [handler Hhandler]. unfold post.
      unfold Organization_objects_get_from_cache in *. cbn in Horg. rewrite Horg.
      rewrite bool_decide_eq_false_2 by done.
      unfold getitem. by rewrite Hkey, Hhandler, Haddr, Hip, Hout.
    + intros Hnone. by eapply unhandled_event_type.
Qed.

End Endpoint_properties.

Lemma outside_address_is_gated_witness :
  post (collaborators := sample_collaborators) outside_request 1 sample_storage
    = (Return {| status := 401 |}, sample_storage).
Proof.
  destruct (outside_address_is_gated (collaborators := sample_collaborators)
              outside_request 1 sample_storage "8.8.8.8" (IPv4Address (ipv4 8 8 8 8))
              eq_refl eq_refl eq_refl) as [_ Hgate].
  destruct (Hgate sample_organization "repo:push" eq_refl ltac:(discriminate) eq_refl)
    as [Hhandled _].
  apply Hhandled. by exists PushEventWebhook.
Defined.

Example addresses_of_the_range :
  ip_in_network (IPv4Address (ipv4 104 192 143 0)) BITBUCKET_IP_RANGE = true ∧
  ip_in_network (IPv4Address (ipv4 104 192 143 255)) BITBUCKET_IP_RANGE = true ∧
  ip_in_network (IPv4Address (ipv4 104 192 144 0)) BITBUCKET_IP_RANGE = false ∧
  ip_in_network (IPv4Address (ipv4 104 192 142 255)) BITBUCKET_IP_RANGE = false ∧
  ip_in_network (IPv6Address 1) BITBUCKET_IP_RANGE = false.
Proof. repeat split. Qed.

Example get_is_refused :
  dispatch (collaborators := sample_collaborators)
    {| method := "GET"; META := ∅; body := "" |} 1 sample_storage
  = (Return {| status := 405 |}, sample_storage).
Proof. reflexivity. Qed.

Example unhandled_event_type_from_outside :
  post (collaborators := sample_collaborators)
    {| method := "POST";
       META := {[ "HTTP_X_EVENT_KEY" := "repo:fork"; "REMOTE_ADDR" := "8.8.8.8" ]};
       body := "{}" |} 1 sample_storage
  = (Return {| status := 204 |}, sample_storage).
Proof. vm_compute. reflexivity. Qed.

(** ** What a delivery does to the storage *)

Lemma grows_refl (s : Storage) : grows s s.
Proof. split_and!; [done|done|exists []|exists []|done]; by rewrite app_nil_r. Qed.

Lemma grows_trans (s1 s2 s3 : Storage) : grows s1 s2 → grows s2 s3 → grows s1 s3.
Proof.
  intros (Ho1 & Hr1 & [a1 Ha1] & [c1 Hc1] & Hamb1) (Ho2 & Hr2 & [a2 Ha2] & [c2 Hc2] & Hamb2).
  split_and!.
  - congruence.
  - congruence.
  - exists (a1 ++ a2). by rewrite Ha2, Ha1, app_assoc.
  - exists (c1 ++ c2). by rewrite Hc2, Hc1, app_assoc.
  - intros org email. by rewrite Hamb2.
Qed.

Lemma grows_has_commit (s s' : Storage) (repo : Z) (key : string) :
  grows s s' → has_commit repo key s → has_commit repo key s'.
Proof.
  intros (_ & _ & _ & [rows Hrows] & _). unfold has_commit. rewrite Hrows.
  intros Hhas. apply Exists_app. by left.
Qed.

Lemma grows_has_author (s s' : Storage) (org : Z) (email : string) :
  grows s s' → has_author org email s → has_author org email s'.
Proof.
  intros (_ & _ & [rows Hrows] & _ & _). unfold has_author. rewrite Hrows.
  intros Hhas. apply Exists_app. by left.
Qed.

(** A row inserted for an address that had none makes nothing ambiguous. *)
Lemma grows_new_author (s : Storage) (row : CommitAuthor) :
  filter (author_matches (author_organization_id row) (author_email row))
    (commit_authors s) = [] →
  grows s (set_commit_authors (commit_authors s ++ [row]) s).
Proof.
  intros Hnone. split_and!; [done|done|by exists [row]|exists []; by rewrite app_nil_r|].
  intros org email. unfold ambiguous. cbn.
  rewrite filter_app, length_app, filter_cons, filter_nil.
  destruct (decide (author_matches org email row)) as [[<- <-]|Hno]; cbn.
  - rewrite Hnone. cbn. lia.
  - by rewrite Nat.add_0_r.
Qed.

Lemma grows_new_commit (s : Storage) (row : Commit) :
  grows s (set_commits (commits s ++ [row]) s).
Proof.
  split_and!; [done|done|exists []; by rewrite app_nil_r|by exists [row]|done].
Qed.

Lemma get_or_create_grows (org : Z) (email name : string) (s : Storage) :
  grows s (CommitAuthor_objects_get_or_create org email name s).2.
Proof.
  rewrite get_or_create_run.
  destruct (filter _ _) as [|a [|b k]] eqn:Hf; cbn; try apply grows_refl.
  by apply grows_new_author.
Qed.

Section Delivery_effect.
Context {collaborators : Collaborators}.

Lemma resolve_author_grows organization raw author_email authors s :
  grows s (resolve_author organization raw author_email authors s).2.
Proof.
  rewrite resolve_author_run. case_bool_decide; [apply grows_refl|].
  destruct (authors !! author_email); [apply grows_refl|].
  pose proof (get_or_create_grows (organization_id organization) author_email
                (strip (split_lt_head raw)) s) as Hg.
  by destruct (CommitAuthor_objects_get_or_create _ _ _ s) as [[] ?].
Qed.

Lemma insert_commit_grows organization repo commit author s :
  grows s (insert_commit organization repo commit author s).2.
Proof.
  rewrite insert_commit_run.
  destruct (parse_date_utc _); [|apply grows_refl].
  case_decide; [apply grows_refl|apply grows_new_commit].
Qed.

Lemma process_commit_grows organization repo authors commit s :
  grows s (process_commit organization repo authors commit s).2.
Proof.
  rewrite process_commit_run.
  destruct (should_ignore_commit _); [apply grows_refl|].
  destruct (parse_raw_user _); [|apply grows_refl].
  pose proof (resolve_author_grows organization (author_raw commit) a authors s) as Hres.
  destruct (resolve_author _ _ _ _ s) as [[[author authors']|] s1]; [|done].
  pose proof (insert_commit_grows organization repo commit author s1) as Hins.
  destruct (insert_commit _ _ _ _ s1) as [[] s2]; by eapply grows_trans.
Qed.

Lemma for_each_grows {A S : Type} (xs : list A) (body : S → A → M S) acc s :
  (∀ acc x s, grows s (body acc x s).2) →
  grows s (for_each xs body acc s).2.
Proof.
  intros Hbody. revert acc s. induction xs as [|x xs IH]; intros acc s.
  - apply grows_refl.
  - cbn [for_each]. unfold bind. pose proof (Hbody acc x s) as Hx.
    destruct (body acc x s) as [[acc'|e] s']; [|done].
    eapply grows_trans; [exact Hx|apply IH].
Qed.

Lemma process_change_grows organization repo authors change s :
  grows s (process_change organization repo authors change s).2.
Proof. apply for_each_grows. intros. apply process_commit_grows. Qed.

End Delivery_effect.

(** ** Replaying a delivery *)

Lemma covers_grows (org repo : Z) (s s' t : Storage) :
  grows s s' → covers org repo s' t → covers org repo s t.
Proof.
  intros Hg [Hc Ha]. split.
  - intros key Hk. apply Hc. by eapply grows_has_commit.
  - intros email He. apply Ha. by eapply grows_has_author.
Qed.

Lemma for_each_replays (org repo : Z) {A : Type}
    (body : gmap string CommitAuthor → A → M (gmap string CommitAuthor)) :
  (∀ acc x s, grows s (body acc x s).2) →
  replays org repo body →
  replays org repo (λ m xs, for_each xs body m).
Proof.
  intros Hgrows Hbody xs. induction xs as [|x xs IH]; intros m n s t Hdom Hamb Hcov.
  - cbn. eauto.
  - cbn [for_each] in *. unfold bind in *.
    pose proof (Hbody x m n s t Hdom Hamb) as Hx.
    pose proof (Hgrows m x s) as Hg.
    destruct (body m x s) as [[m1|e] s1]; cbn [fst snd] in *.
    + destruct Hx as (n1 & -> & Hdom1).
      { eapply covers_grows; [|exact Hcov].
        apply (for_each_grows xs body m1 s1 Hgrows). }
      apply IH; [done| |done].
      intros email. destruct Hg as (_ & _ & _ & _ & Hg). by rewrite Hg.
    + by rewrite Hx.
Qed.

Section Redelivery.
Context {collaborators : Collaborators}.
Variables (organization : Organization) (repo : Repository).

Lemma insert_commit_replay commit a b s t :
  (has_commit (repository_id repo) (hash commit)
     (insert_commit organization repo commit a s).2 →
   has_commit (repository_id repo) (hash commit) t) →
  insert_commit organization repo commit b t =
  ((insert_commit organization repo commit a s).1, t).
Proof.
  rewrite !insert_commit_run. destruct (parse_date_utc _) as [d|]; [|done].
  intros Hcov.
  assert (has_commit (repository_id repo) (hash commit) t) as Ht.
  { apply Hcov. case_decide; [done|].
    unfold has_commit. cbn. apply Exists_app. right. by left. }
  rewrite (decide_True _ _ Ht). by case_decide.
Qed.

Lemma resolve_author_replay raw email m n s t :
  dom m = dom n →
  (∀ e, ambiguous (organization_id organization) e s ↔
        ambiguous (organization_id organization) e t) →
  (∀ e, has_author (organization_id organization) e
          (resolve_author organization raw email m s).2 →
        has_author (organization_id organization) e t) →
  match (resolve_author organization raw email m s).1 with
  | Return (a, m1) =>
      ∃ b n1, resolve_author organization raw email n t = (Return (b, n1), t) ∧
              dom m1 = dom n1
  | Raise x => resolve_author organization raw email n t = (Raise x, t)
  end.
Proof.
  intros Hdom Hamb. rewrite !resolve_author_run.
  case_bool_decide; [intros _; cbn; eauto|].
  destruct (m !! email) as [a|] eqn:Hm, (n !! email) as [b|] eqn:Hn.
  - intros _. cbn. eauto.
  - apply (elem_of_dom_2 (D := gset string)) in Hm.
    apply (not_elem_of_dom (D := gset string)) in Hn. by rewrite Hdom in Hm.
  - apply (elem_of_dom_2 (D := gset string)) in Hn.
    apply (not_elem_of_dom (D := gset string)) in Hm. by rewrite Hdom in Hm.
  - rewrite !get_or_create_run.
    pose proof (Hamb email) as Hambe. unfold ambiguous in Hambe.
    destruct (filter _ (commit_authors s)) as [|a [|a' k]] eqn:Hs;
      destruct (filter _ (commit_authors t)) as [|b [|b' k']] eqn:Ht;
      cbn in *; intros Hcov; try lia; try done.
    + exfalso. assert (has_author (organization_id organization) email t) as Hex.
      { apply Hcov. unfold has_author. cbn. apply Exists_app. right. by left. }
      apply (Exists_filter (author_matches _ _)) in Hex. by rewrite Ht in Hex.
    + eexists _, _. split; [done|]. by rewrite !dom_insert_L, Hdom.
    + exfalso. assert (has_author (organization_id organization) email t) as Hex.
      { apply Hcov. apply (Exists_filter (author_matches _ _)). by rewrite Hs. }
      apply (Exists_filter (author_matches _ _)) in Hex. by rewrite Ht in Hex.
    + eexists _, _. split; [done|]. by rewrite !dom_insert_L, Hdom.
Qed.

Lemma process_commit_replays :
  replays (organization_id organization) (repository_id repo)
    (process_commit organization repo).
Proof.
  intros commit m n s t Hdom Hamb. rewrite !process_commit_run.
  destruct (should_ignore_commit _); [intros _; cbn; eauto|].
  destruct (parse_raw_user _) as [email|]; [|done].
  pose proof (resolve_author_replay (author_raw commit) email m n s t Hdom Hamb) as Hres.
  destruct (resolve_author _ _ _ m s) as [[[a m1]|x] s1]; cbn [fst snd] in *.
  - pose proof (insert_commit_grows organization repo commit a s1) as Hg.
    pose proof (λ b, insert_commit_replay commit a b s1 t) as Hins.
    destruct (insert_commit _ _ _ a s1) as [oi s2]; cbn [fst snd] in *.
    intros Hcov.
    assert (covers (organization_id organization) (repository_id repo) s2 t) as [Hck Hca]
      by by destruct oi.
    destruct Hres as (b & n1 & -> & Hdom1).
    { intros e He. apply Hca. by eapply grows_has_author. }
    rewrite Hins by apply Hck.
    destruct oi; cbn; eauto.
  - intros [_ Hca]. by rewrite Hres.
Qed.

Lemma process_change_replays :
  replays (organization_id organization) (repository_id repo)
    (process_change organization repo).
Proof.
  intros change. unfold process_change.
  apply (for_each_replays _ _ (process_commit organization repo)).
  - intros. apply process_commit_grows.
  - apply process_commit_replays.
Qed.

(** The loop over the change-sets, run again on the storage it left. *)
Lemma changes_redelivered (changes : list Change) s :
  let first := for_each changes (process_change organization repo) ∅ s in
  match first.1 with
  | Return _ =>
      ∃ n1, for_each changes (process_change organization repo) ∅ first.2
            = (Return n1, first.2)
  | Raise e =>
      for_each changes (process_change organization repo) ∅ first.2 = (Raise e, first.2)
  end.
Proof.
  intros first.
  pose proof (for_each_replays (organization_id organization) (repository_id repo)
                (process_change organization repo)
                (process_change_grows organization repo) process_change_replays
                changes ∅ ∅ s first.2 eq_refl) as Hreplay.
  cbn beta in Hreplay. fold first in Hreplay.
  assert (grows s first.2) as Hg.
  { apply for_each_grows. intros. apply process_change_grows. }
  destruct (first.1) as [m1|e].
  - destruct Hreplay as (n1 & Hn1 & _); [| |by eauto].
    + intros email. destruct Hg as (_ & _ & _ & _ & Hamb). by rewrite Hamb.
    + by split.
  - apply Hreplay.
    + intros email. destruct Hg as (_ & _ & _ & _ & Hamb). by rewrite Hamb.
    + by split.
Qed.

End Redelivery.

(** ** The repository row *)

Lemma NoDup_fmap_eq {A B : Type} (f : A → B) (l : list A) (x y : A) :
  NoDup (f <$> l) → x ∈ l → y ∈ l → f x = f y → x = y.
Proof.
  induction l as [|a l IH]; intros Hnd Hx Hy Hf; [by apply elem_of_nil in Hx|].
  cbn in Hnd. apply NoDup_cons in Hnd as [Hnotin Hnd].
  apply elem_of_cons in Hx as [->|Hx]; apply elem_of_cons in Hy as [->|Hy].
  - done.
  - destruct Hnotin. rewrite Hf. by apply list_elem_of_fmap_2.
  - destruct Hnotin. rewrite <- Hf. by apply list_elem_of_fmap_2.
  - by apply IH.
Qed.

Lemma filter_fmap_stable {A : Type} (P : A → Prop) `{!∀ x, Decision (P x)}
    (f : A → A) (l : list A) :
  (∀ x, x ∈ l → (P (f x) ↔ P x)) → filter P (f <$> l) = f <$> filter P l.
Proof.
  induction l as [|a l IH]; intros Hst; [done|].
  cbn [fmap list_fmap]. rewrite !filter_cons.
  assert (P (f a) ↔ P a) as Ha by (apply Hst; left).
  rewrite IH by (intros x Hx; apply Hst; by right).
  destruct (decide (P (f a))), (decide (P a)); tauto || done.
Qed.

Lemma find_repository_run (org : Z) (external_id : string) (s : Storage) :
  try_except (Repository_objects_get org "bitbucket" external_id) DoesNotExist
    (raise Http404) s =
  match filter (repository_matches org "bitbucket" external_id) (repositories s) with
  | [] => (Raise Http404, s)
  | [repo] => (Return repo, s)
  | _ :: _ :: _ => (Raise MultipleObjectsReturned, s)
  end.
Proof.
  unfold try_except, Repository_objects_get.
  by destruct (filter _ _) as [|a [|b k]].
Qed.

Section Whole_delivery.
Context {collaborators : Collaborators}.

(** [sync_name] on the one row that matches: it always returns, it leaves
    everything but the Repository rows alone, the row it returns is the one
    row that matches afterwards, and a second [sync_name] has nothing to do. *)
Lemma sync_name_run org external_id repo full_name s :
  repository_ids_unique s →
  filter (repository_matches org "bitbucket" external_id) (repositories s) = [repo] →
  ∃ repo1 s1,
    sync_name repo full_name s = (Return repo1, s1) ∧
    repository_id repo1 = repository_id repo ∧
    organizations s1 = organizations s ∧
    commit_authors s1 = commit_authors s ∧
    commits s1 = commits s ∧
    filter (repository_matches org "bitbucket" external_id) (repositories s1) = [repo1] ∧
    ∀ s', sync_name repo1 full_name s' = (Return repo1, s').
Proof.
  intros Hids Hone.
  assert (repo ∈ repositories s ∧ repository_matches org "bitbucket" external_id repo)
    as [Hin Hmatch].
  { assert (repo ∈ filter (repository_matches org "bitbucket" external_id)
                     (repositories s)) as Hf by (rewrite Hone; left).
    apply list_elem_of_filter in Hf. tauto. }
  unfold sync_name. case_bool_decide as Hname.
  - set (repo1 := {| repository_id := repository_id repo;
                     repository_organization_id := repository_organization_id repo;
                     repository_provider := repository_provider repo;
                     repository_external_id := repository_external_id repo;
                     repository_config := <["name" := full_name]> (repository_config repo) |}).
    unfold bind, Repository_save, ret.
    assert (existsb (λ r, bool_decide (repository_id r = repository_id repo1))
              (repositories s) = true) as ->.
    { apply existsb_exists. exists repo. split; [by apply list_elem_of_In|].
      by apply bool_decide_eq_true. }
    eexists _, _. split; [done|]. split_and!; try done.
    + cbn. rewrite filter_fmap_stable.
      * rewrite Hone. cbn. by rewrite bool_decide_eq_true_2.
      * intros r Hr. case_bool_decide as Hid; [|done].
        apply (NoDup_fmap_eq repository_id _ r repo Hids Hr Hin) in Hid as ->.
        done.
    + intros s'. rewrite bool_decide_eq_false_2; [done|].
      intros Hne. apply Hne. cbn. by rewrite lookup_insert_eq.
  - eexists _, _. split; [done|]. split_and!; try done.
    intros s'. rewrite bool_decide_eq_false_2; [done|].
    intros Hne. by apply Hne.
Qed.

Lemma PushEventWebhook_call_run organization event s :
  PushEventWebhook_call organization event s =
  match filter (repository_matches (organization_id organization) "bitbucket"
                  (repository_uuid event)) (repositories s) with
  | [] => (Raise Http404, s)
  | [repo] =>
      match sync_name repo (repository_full_name event) s with
      | (Return repo1, s1) =>
          match for_each (push_changes event) (process_change organization repo1) ∅ s1 with
          | (Return _, s2) => (Return tt, s2)
          | (Raise e, s2) => (Raise e, s2)
          end
      | (Raise e, s1) => (Raise e, s1)
      end
  | _ :: _ :: _ => (Raise MultipleObjectsReturned, s)
  end.
Proof.
  unfold PushEventWebhook_call. unfold bind at 1. rewrite find_repository_run.
  by destruct (filter _ _) as [|repo [|b k]].
Qed.

(** C1: for every push-event payload, on a storage whose Repository rows
    have distinct primary keys, delivering the payload a second time ends as
    the first delivery ended (no error the first did not raise: the refused
    inserts are absorbed) and leaves the storage the first delivery left: the
    same Commit rows, none added, and likewise the same author and
    repository rows. *)
Theorem redelivery_is_absorbed organization event s :
  repository_ids_unique s →
  let first := PushEventWebhook_call organization event s in
  let second := PushEventWebhook_call organization event first.2 in
  commits second.2 = commits first.2 ∧
  second.1 = first.1 ∧
  second.2 = first.2.
Proof.
  intros Hids first second.
  assert (second = first) as ->; [|done].
  subst second first. rewrite (PushEventWebhook_call_run organization event s).
  destruct (filter _ (repositories s)) as [|repo [|b k]] eqn:Hfind; cbn [snd].
  - by rewrite PushEventWebhook_call_run, Hfind.
  - destruct (sync_name_run _ _ repo (repository_full_name event) s Hids Hfind)
      as (repo1 & s1 & -> & Hid & Ho & Ha & Hc & Hfind1 & Hsync).
    pose proof (changes_redelivered organization repo1 (push_changes event) s1) as Hre.
    assert (grows s1 (for_each (push_changes event)
                        (process_change organization repo1) ∅ s1).2) as Hg.
    { apply for_each_grows. intros. apply process_change_grows. }
    cbn zeta in Hre.
    destruct (for_each _ _ _ s1) as [[m1|e] s2]; cbn [fst snd] in *.
    + destruct Hre as [n1 Hre].
      rewrite PushEventWebhook_call_run.
      destruct Hg as (_ & -> & _). by rewrite Hfind1, Hsync, Hre.
    + rewrite PushEventWebhook_call_run.
      destruct Hg as (_ & -> & _). by rewrite Hfind1, Hsync, Hre.
  - by rewrite PushEventWebhook_call_run, Hfind.
Qed.

End Whole_delivery.

Lemma redelivery_is_absorbed_witness :
  let first := PushEventWebhook_call (collaborators := sample_collaborators)
                 sample_organization sample_event sample_storage in
  let second := PushEventWebhook_call (collaborators := sample_collaborators)
                  sample_organization sample_event first.2 in
  commits second.2 = commits first.2 ∧ second.1 = first.1 ∧ second.2 = first.2.
Proof.
  apply (redelivery_is_absorbed (collaborators := sample_collaborators)).
  unfold repository_ids_unique. cbn. apply NoDup_singleton.
Defined.

(** ** One author row per organization and email *)

Lemma authors_unique_ambiguous (s : Storage) :
  authors_unique s ↔ ∀ org email, ¬ ambiguous org email s.
Proof.
  unfold authors_unique, ambiguous. split; intros Hu org email;
    specialize (Hu org email); lia.
Qed.

(** Whatever keeps the ambiguous addresses as they are keeps the
    constraint. *)
Lemma authors_unique_preserved (s s' : Storage) :
  (∀ org email, ambiguous org email s' ↔ ambiguous org email s) →
  authors_unique s → authors_unique s'.
Proof.
  intros Hamb. rewrite !authors_unique_ambiguous.
  intros Hu org email. rewrite Hamb. apply Hu.
Qed.

(** Every statement of an author resolution leaves the CommitAuthor rows
    alone or appends a row for an address that had none. *)
Lemma resolution_step_grows (t : Resolution) (s : Storage) :
  grows s (resolution_step t s).2.
Proof.
  destruct t as [org email name|org email name|org email name|result];
    cbn [resolution_step].
  - unfold CommitAuthor_objects_get.
    destruct (objects_get _) as [|[]]; apply grows_refl.
  - unfold transaction_atomic, CommitAuthor_objects_create.
    destruct (decide (Exists _ _)) as [|Hnone]; cbn; [apply grows_refl|].
    apply grows_new_author. cbn.
    destruct (filter _ _) eqn:Hf; [done|]. destruct Hnone.
    apply (Exists_filter (author_matches org email)). by rewrite Hf.
  - unfold CommitAuthor_objects_get.
    destruct (objects_get _) as [|[]]; apply grows_refl.
  - apply grows_refl.
Qed.

(** The three statements of a resolution, run with nothing in between, are
    [get_or_create]. *)
Lemma resolution_alone (org : Z) (email name : string) (s : Storage) :
  let r1 := resolution_step (BeforeGet org email name) s in
  let r2 := resolution_step r1.1 r1.2 in
  let r3 := resolution_step r2.1 r2.2 in
  r3 = (Finished (CommitAuthor_objects_get_or_create org email name s).1,
        (CommitAuthor_objects_get_or_create org email name s).2).
Proof.
  rewrite get_or_create_run. cbn [resolution_step].
  unfold CommitAuthor_objects_get.
  destruct (filter _ (commit_authors s)) as [|a [|b k]] eqn:Hf; cbn; [|done..].
  unfold transaction_atomic, CommitAuthor_objects_create.
  destruct (decide (Exists _ _)) as [Hex|_]; [|done].
  by apply (Exists_filter (author_matches org email)) in Hex.
Qed.

Section Uniqueness.
Context {collaborators : Collaborators}.

Lemma sync_name_authors repo full_name s :
  commit_authors (sync_name repo full_name s).2 = commit_authors s.
Proof.
  unfold sync_name. case_bool_decide; [|done].
  unfold bind, Repository_save. by destruct (existsb _ _).
Qed.

Lemma delivery_keeps_ambiguity organization event s org email :
  ambiguous org email (PushEventWebhook_call organization event s).2 ↔
  ambiguous org email s.
Proof.
  rewrite PushEventWebhook_call_run.
  destruct (filter _ (repositories s)) as [|repo [|b k]]; [done| |done].
  pose proof (sync_name_authors repo (repository_full_name event) s) as Hsync.
  destruct (sync_name _ _ s) as [[repo1|e] s1]; cbn [snd] in *.
  - assert (grows s1 (for_each (push_changes event)
                        (process_change organization repo1) ∅ s1).2)
      as (_ & _ & _ & _ & Hamb).
    { apply for_each_grows. intros. apply process_change_grows. }
    assert (ambiguous org email s1 ↔ ambiguous org email s) as <-
      by (unfold ambiguous; by rewrite Hsync).
    by destruct (for_each _ _ _ s1) as [[] s2].
  - unfold ambiguous. by rewrite Hsync.
Qed.

Lemma statement_step_unique x y :
  statement_step x y → authors_unique x.2 → authors_unique y.2.
Proof.
  intros [threads s org email name|threads s i t t' s' _ Hstep
         |threads s organization repo commit author out s' Hins
         |threads s repo out s' Hsave]; cbn [snd].
  - done.
  - apply authors_unique_preserved. intros org email.
    pose proof (resolution_step_grows t s) as (_ & _ & _ & _ & Hamb).
    rewrite Hstep in Hamb. apply Hamb.
  - apply authors_unique_preserved. intros org email.
    pose proof (insert_commit_grows organization repo commit author s)
      as (_ & _ & _ & _ & Hamb).
    rewrite Hins in Hamb. apply Hamb.
  - apply authors_unique_preserved. intros org email.
    unfold Repository_save in Hsave. unfold ambiguous.
    by destruct (existsb _ _); simplify_eq.
Qed.

Lemma system_step_unique x y :
  system_step x y → authors_unique x.2 → authors_unique y.2.
Proof.
  intros [x' y' Hstatement|threads s organization event out s' Hcall]; cbn [snd].
  - by apply statement_step_unique.
  - apply authors_unique_preserved. intros org email.
    pose proof (delivery_keeps_ambiguity organization event s org email) as Hamb.
    by rewrite Hcall in Hamb.
Qed.

(** What does stay with the one commit: with the constraint in force, a
    commit whose author line and date parse never ends the loop, whether its
    key is taken or new and however long its address is. *)
Lemma process_commit_returns organization repo authors commit author_email date_added s :
  authors_unique s →
  parse_raw_user (author_raw commit) = Return author_email →
  parse_date_utc (date commit) = Some date_added →
  ∃ authors', (process_commit organization repo authors commit s).1 = Return authors'.
Proof.
  intros Hu Hparse Hdate. rewrite process_commit_run.
  destruct (should_ignore_commit _); [by eexists|].
  rewrite Hparse, resolve_author_run.
  assert (∀ author (authors' : gmap string CommitAuthor) s1,
    ∃ authors'', (match insert_commit organization repo commit author s1 with
                  | (Return _, s2) => (Return authors', s2)
                  | (Raise e, s2) => (Raise e, s2)
                  end).1 = Return authors'') as Hins.
  { intros author authors' s1. rewrite insert_commit_run, Hdate.
    case_decide; by eexists. }
  case_bool_decide; [apply Hins|].
  destruct (authors !! author_email); [apply Hins|].
  rewrite get_or_create_run. specialize (Hu (organization_id organization) author_email).
  destruct (filter _ _) as [|a [|b k]]; cbn in *; [apply Hins|apply Hins|lia].
Qed.

(** C8: from a storage with at most one CommitAuthor row per organization
    and email, every run of the system (whole deliveries of push events, and
    the statements of deliveries in flight, author resolutions among them,
    interleaved in any order) ends in a storage with at most one
    CommitAuthor row per organization and email. *)
Theorem at_most_one_author_per_email threads s threads' s' :
  authors_unique s →
  rtc system_step (threads, s) (threads', s') →
  ∀ org email,
    (length (filter (author_matches org email) (commit_authors s')) ≤ 1)%nat.
Proof.
  intros Hu Hrun.
  change (authors_unique (threads', s').2).
  change (authors_unique (threads, s).2) in Hu.
  induction Hrun as [|x y z Hstep _ IH]; [done|].
  apply IH. by eapply system_step_unique.
Qed.

End Uniqueness.

(** Two resolutions of one new address, statement by statement: both miss,
    both go on to create, the second insert is refused and its get finds the
    row of the first. *)
Example concurrent_creation :
  let t := BeforeGet 1 "jane@x.com" "Jane" in
  let a1 := resolution_step t sample_storage in
  let b1 := resolution_step t a1.2 in
  let a2 := resolution_step a1.1 b1.2 in
  let b2 := resolution_step b1.1 a2.2 in
  let b3 := resolution_step b2.1 b2.2 in
  let jane := {| author_id := 1; author_organization_id := 1;
                 author_email := "jane@x.com"; author_name := "Jane" |} in
  a1.1 = BeforeCreate 1 "jane@x.com" "Jane" ∧ b1.1 = BeforeCreate 1 "jane@x.com" "Jane" ∧
  a2.1 = Finished (Return jane) ∧ b2.1 = BeforeGetAgain 1 "jane@x.com" "Jane" ∧
  b3.1 = Finished (Return jane) ∧ commit_authors b3.2 = [jane].
Proof. vm_compute. repeat split. Qed.

(** ** A delivery is a run of its statements *)

Section Statements_of_a_delivery.
Context {collaborators : Collaborators}.

Lemma one_statement threads i t s :
  threads !! i = Some t →
  statement_step (threads, s)
    (<[i := (resolution_step t s).1]> threads, (resolution_step t s).2).
Proof.
  intros Hi. eapply step_resolution; [done|]. by destruct (resolution_step t s).
Qed.

Lemma get_or_create_is_a_run threads org email name s :
  ∃ threads',
    rtc statement_step (threads, s)
      (threads', (CommitAuthor_objects_get_or_create org email name s).2).
Proof.
  pose proof (resolution_alone org email name s) as Halone. cbn zeta in Halone.
  set (t0 := BeforeGet org email name) in *.
  set (r1 := resolution_step t0 s) in *.
  set (r2 := resolution_step r1.1 r1.2) in *.
  assert ((threads ++ [t0]) !! length threads = Some t0) as H0
    by by apply list_lookup_middle.
  assert (length threads < length (threads ++ [t0]))%nat as Hlt
    by (rewrite length_app; cbn; lia).
  eexists.
  eapply rtc_l; [apply (step_start threads s org email name)|].
  eapply rtc_l; [apply (one_statement _ (length threads) t0 s H0)|].
  eapply rtc_l.
  { apply (one_statement _ (length threads) r1.1).
    by apply list_lookup_insert_eq. }
  eapply rtc_l.
  { apply (one_statement _ (length threads) r2.1).
    apply list_lookup_insert_eq. by rewrite length_insert. }
  fold r1. fold r2. rewrite Halone. cbn [fst snd]. apply rtc_refl.
Qed.

Lemma process_commit_is_a_run organization repo authors commit threads s :
  ∃ threads',
    rtc statement_step (threads, s)
      (threads', (process_commit organization repo authors commit s).2).
Proof.
  rewrite process_commit_run.
  destruct (should_ignore_commit _); [by eexists|].
  destruct (parse_raw_user _) as [email|]; [|by eexists].
  assert (∃ threads1, rtc statement_step (threads, s)
            (threads1, (resolve_author organization (author_raw commit) email authors s).2))
    as [threads1 Hres].
  { rewrite resolve_author_run. case_bool_decide; [by eexists|].
    destruct (authors !! email); [by eexists|].
    destruct (get_or_create_is_a_run threads (organization_id organization) email
                (strip (split_lt_head (author_raw commit))) s) as [threads1 Hrun].
    exists threads1.
    by destruct (CommitAuthor_objects_get_or_create _ _ _ s) as [[] ?]. }
  destruct (resolve_author _ _ _ _ s) as [[[author authors']|e] s1]; [|by eexists].
  exists threads1. eapply rtc_r; [exact Hres|].
  apply (step_insert threads1 s1 organization repo commit author
           (insert_commit organization repo commit author s1).1).
  by destruct (insert_commit _ _ _ _ s1) as [[] ?].
Qed.

Lemma for_each_is_a_run {A S : Type} (xs : list A) (body : S → A → M S) acc threads s :
  (∀ acc x threads s,
     ∃ threads', rtc statement_step (threads, s) (threads', (body acc x s).2)) →
  ∃ threads', rtc statement_step (threads, s) (threads', (for_each xs body acc s).2).
Proof.
  intros Hbody. revert acc threads s.
  induction xs as [|x xs IH]; intros acc threads s; [by eexists|].
  cbn [for_each]. unfold bind.
  destruct (Hbody acc x threads s) as [threads1 Hx].
  destruct (body acc x s) as [[acc'|e] s1]; [|by eexists].
  destruct (IH acc' threads1 s1) as [threads2 Hxs].
  exists threads2. by etrans.
Qed.

(** A delivery that runs alone is a sequence of statement moves. *)
Lemma delivery_is_a_run organization event threads s :
  ∃ threads',
    rtc statement_step (threads, s)
      (threads', (PushEventWebhook_call organization event s).2).
Proof.
  rewrite PushEventWebhook_call_run.
  destruct (filter _ (repositories s)) as [|repo [|b k]]; [by eexists| |by eexists].
  assert (∃ threads1, rtc statement_step (threads, s)
            (threads1, (sync_name repo (repository_full_name event) s).2))
    as [threads1 Hsync].
  { unfold sync_name. case_bool_decide; [|by eexists].
    exists threads. apply rtc_once. unfold bind.
    set (repo' := Build_Repository _ _ _ _ _).
    apply (step_save threads s repo' (Repository_save repo' s).1).
    by destruct (Repository_save repo' s) as [[] ?]. }
  destruct (sync_name _ _ s) as [[repo1|e] s1]; [|by eexists].
  destruct (for_each_is_a_run (push_changes event) (process_change organization repo1)
              ∅ threads1 s1) as [threads2 Hloop].
  { intros acc change threads' s'. apply for_each_is_a_run.
    intros. apply process_commit_is_a_run. }
  exists threads2.
  destruct (for_each _ _ _ s1) as [[] s2]; by etrans.
Qed.

End Statements_of_a_delivery.

Lemma at_most_one_author_per_email_witness :
  (length (filter (author_matches 1 "jane@x.com")
     (commit_authors
        (PushEventWebhook_call (collaborators := sample_collaborators)
           sample_organization sample_event sample_storage).2)) ≤ 1)%nat.
Proof.
  apply (at_most_one_author_per_email (collaborators := sample_collaborators)
           [] sample_storage []).
  - intros org email. cbn. lia.
  - apply rtc_once.
    apply (step_delivery (collaborators := sample_collaborators) [] sample_storage
             sample_organization sample_event
             (PushEventWebhook_call (collaborators := sample_collaborators)
                sample_organization sample_event sample_storage).1).
    by destruct (PushEventWebhook_call _ _ _).
Defined.

(** * Further properties of the code *)

(** ** [parse_raw_user]: what a match looks like *)

Lemma str_app_assoc (a b c : string) : (a +:+ b) +:+ c = a +:+ b +:+ c.
Proof. induction a as [|x a IH]; [done|]. by rewrite !app_cons, IH. Qed.


(** What the greedy star keeps is free of line feeds and is followed by the
    closing bracket that ends the text, or by it and one last line feed. *)
Lemma dot_star_sound (rest m : string) :
  dot_star rest = Some m →
  occurs LF m = false ∧
  (rest = m +:+ ">" ∨ rest = m +:+ ">" +:+ String LF "").
Proof.
  revert m. induction rest as [|c r IH]; intros m; [done|].
  cbn [dot_star]. case_bool_decide as Hlf.
  - subst c. done.
  - destruct (dot_star r) as [m'|].
    + intros [= <-]. destruct (IH m' eq_refl) as [Hfree Hshape]. split.
      * cbn. by rewrite bool_decide_eq_false_2.
      * rewrite !app_cons. destruct Hshape as [-> | ->]; auto.
    + unfold lookahead_gt_dollar. case_bool_decide as Hgt; [|done]. subst c.
      destruct r as [|c' [|c'' r']]; cbn; try done.
      * intros [= <-]. auto.
      * case_bool_decide as Hc'; [|done]. subst c'. intros [= <-]. auto.
Qed.

(** A match of the scan starts right after an opening bracket. *)
Lemma search_sound (prev : option ascii) (rest m : string) :
  search prev rest = Some m →
  ∃ skipped tail,
    rest = skipped +:+ tail ∧ dot_star tail = Some m ∧
    (skipped = "" ∧ prev = Some "<"%char ∨ ∃ before, skipped = before +:+ "<").
Proof.
  revert prev. induction rest as [|c r IH]; intros prev; cbn [search].
  - case_bool_decide as Hprev; [|done].
    destruct (dot_star "") as [m'|] eqn:Hm; [|done]. intros [= <-].
    exists "", "". auto.
  - destruct (if bool_decide (prev = Some "<"%char) then dot_star (String c r) else None)
      as [m'|] eqn:Hhere.
    + intros [= <-]. case_bool_decide as Hprev; [|done].
      exists "", (String c r). auto.
    + intros Hsearch. destruct (IH _ Hsearch) as (skipped & tail & -> & Htail & Hbefore).
      exists (String c skipped), tail. split; [done|]. split; [done|]. right.
      destruct Hbefore as [[-> [= ->]]|[before ->]].
      * by exists "".
      * by exists (String c before).
Qed.

(** X1.  Whatever [parse_raw_user] returns stands in [raw] right after a
    ['<'] and right before the ['>'] that ends [raw] (one last line feed
    apart), and holds no line feed. *)
Theorem parse_raw_user_sound (raw m : string) :
  parse_raw_user raw = Return m →
  occurs LF m = false ∧
  ∃ pre, raw = pre +:+ "<" +:+ m +:+ ">" ∨
         raw = pre +:+ "<" +:+ m +:+ ">" +:+ String LF "".
Proof.
  unfold parse_raw_user, re_search.
  destruct (search None raw) as [m'|] eqn:Hsearch; [|done]. intros [= ->].
  destruct (search_sound _ _ _ Hsearch) as (skipped & tail & -> & Htail & Hbefore).
  destruct (dot_star_sound _ _ Htail) as [Hfree Hshape]. split; [done|].
  destruct Hbefore as [[_ [=]]|[before ->]].
  exists before. rewrite str_app_assoc. destruct Hshape as [-> | ->]; auto.
Qed.

Lemma parse_raw_user_sound_witness :
  occurs LF "b> <c" = false ∧
  ∃ pre, "A <b> <c>" = pre +:+ "<" +:+ "b> <c" +:+ ">" ∨
         "A <b> <c>" = pre +:+ "<" +:+ "b> <c" +:+ ">" +:+ String LF "".
Proof. apply (parse_raw_user_sound "A <b> <c>" "b> <c"). reflexivity. Defined.

(** The star cannot reach a closing bracket beyond a line feed that is not
    the last character. *)
Lemma dot_star_blocked (u v : string) :
  v ≠ "" → dot_star (u +:+ String LF v) = None.
Proof.
  intros Hv. induction u as [|c u IH].
  - rewrite app_empty. cbn. by rewrite bool_decide_eq_true_2.
  - rewrite app_cons. cbn [dot_star]. rewrite IH.
    assert (lookahead_gt_dollar (String c (u +:+ String LF v)) = false) as ->.
    { unfold lookahead_gt_dollar. case_bool_decide; [|done]. cbn.
      destruct u as [|c' u]; [by destruct v|].
      rewrite app_cons. destruct u; [done|]. by rewrite app_cons. }
    by case_bool_decide.
Qed.

(** The scan finds nothing before such a line feed. *)
Lemma search_past_line (head tail : string) (prev : option ascii) :
  tail ≠ "" →
  search prev (head +:+ String LF tail) = search (Some LF) tail.
Proof.
  intros Htail. revert prev. induction head as [|c head IH]; intros prev.
  - pose proof (dot_star_blocked "" tail Htail) as Hblocked.
    rewrite app_empty in *. cbn [search]. rewrite Hblocked. by case_bool_decide.
  - pose proof (dot_star_blocked (String c head) tail Htail) as Hblocked.
    rewrite app_cons in *. cbn [search]. rewrite Hblocked.
    case_bool_decide; apply IH.
Qed.

Lemma dot_star_line_feed (mid : string) :
  occurs LF mid = false → dot_star (mid +:+ ">" +:+ String LF "") = Some mid.
Proof.
  induction mid as [|c mid IH]; intros Hlf.
  - reflexivity.
  - apply occurs_cons_false in Hlf as [Hc Hmid].
    rewrite app_cons. cbn [dot_star].
    rewrite bool_decide_eq_false_2 by done.
    by rewrite IH.
Qed.

(** X2.  One line feed after the closing bracket is passed over: the text
    between the first ['<'] and that bracket is extracted as without it. *)
Theorem parse_raw_user_trailing_line_feed (pre mid : string) :
  occurs "<" pre = false →
  occurs LF mid = false →
  parse_raw_user (pre +:+ "<" +:+ mid +:+ ">" +:+ String LF "") = Return mid.
Proof.
  intros Hpre Hmid. unfold parse_raw_user, re_search.
  change ("<" +:+ mid +:+ ">" +:+ String LF "")
    with (String "<" (mid +:+ ">" +:+ String LF "")).
  rewrite search_before_bracket by done.
  by rewrite (search_after_bracket _ mid) by by apply dot_star_line_feed.
Qed.

Lemma parse_raw_user_trailing_line_feed_witness :
  parse_raw_user ("Jane " +:+ "<" +:+ "j@x.com" +:+ ">" +:+ String LF "") = Return "j@x.com".
Proof. apply parse_raw_user_trailing_line_feed; reflexivity. Defined.

(** X3.  Only the last line of [raw] counts: whatever comes before a line
    feed, brackets included, is passed over, and the match is taken in the
    text after it. *)
Theorem parse_raw_user_last_line (head pre mid : string) :
  occurs "<" pre = false →
  occurs LF mid = false →
  parse_raw_user (head +:+ String LF (pre +:+ "<" +:+ mid +:+ ">")) = Return mid.
Proof.
  intros Hpre Hmid. unfold parse_raw_user, re_search.
  rewrite search_past_line.
  - change ("<" +:+ mid +:+ ">") with (String "<" (mid +:+ ">")).
    rewrite search_before_bracket by done.
    by rewrite (search_after_bracket _ mid) by by apply dot_star_line.
  - by destruct pre.
Qed.

Lemma parse_raw_user_last_line_witness :
  parse_raw_user ("<old@x.com>" +:+ String LF ("Jane " +:+ "<" +:+ "j@x.com" +:+ ">"))
    = Return "j@x.com".
Proof. apply parse_raw_user_last_line; reflexivity. Defined.

(** ** The display name of a new author *)





















(** ** The endpoint: what each request is answered *)

Section Endpoint_answers.
Context {collaborators : Collaborators}.

(** X6.  Every answer of [dispatch] is 204, 400, 401 or 405, and any answer
    other than 204 leaves the storage as it was. *)
Theorem rejections_write_nothing request org_id s :
  ∀ response,
    (dispatch request org_id s).1 = Return response →
    status response ∈ [204; 400; 401; 405] ∧
    (status response ≠ 204 → (dispatch request org_id s).2 = s).
Proof.
  intros response. unfold dispatch, post, Organization_objects_get_from_cache, getitem.
  case_bool_decide; [intros [= <-]; cbn; set_solver|].
  destruct (objects_get _) as [organization|[]]; try done;
    [|intros [= <-]; cbn; set_solver].
  case_bool_decide; [intros [= <-]; cbn; set_solver|].
  destruct (META request !! "HTTP_X_EVENT_KEY") as [event_type|];
    [|intros [= <-]; cbn; set_solver].
  destruct (get_handler event_type) as [handler|];
    [|intros [= <-]; cbn; set_solver].
  destruct (META request !! "REMOTE_ADDR") as [remote_addr|]; [|done].
  destruct (ip_address remote_addr) as [address|]; [|done].
  destruct (negb _); [intros [= <-]; cbn; set_solver|].
  destruct (json_loads (body request)) as [event|[]]; try done;
    [|intros [= <-]; cbn; set_solver].
  unfold bind, ret.
  destruct (Handler_call handler organization event s) as [[] s']; [|done].
  intros [= <-]. cbn. split; [set_solver|done].
Qed.

(** X7.  ["repo:push"] is the one event type with a handler; a request of
    any other event type, once the organization resolves and the body is
    not empty, is answered 204 with nothing written, whatever its address
    and whatever its body holds. *)
Theorem only_push_events_are_handled request org_id s organization event_type :
  event_type ≠ "repo:push" →
  get_handler event_type = None ∧
  ((Organization_objects_get_from_cache org_id s).1 = Return organization →
   body request ≠ "" →
   META request !! "HTTP_X_EVENT_KEY" = Some event_type →
   post request org_id s = (Return {| status := 204 |}, s)).
Proof.
  intros Hother.
  assert (get_handler event_type = None) as Hnone.
  { unfold get_handler, _handlers. by apply lookup_singleton_ne. }
  split; [done|]. intros Horg Hbody Hkey. unfold post.
  unfold Organization_objects_get_from_cache in *. cbn in Horg. rewrite Horg.
  rewrite bool_decide_eq_false_2 by done.
  unfold getitem. by rewrite Hkey, Hnone.
Qed.

(** X8.  A request that passes every check (organization, body, event type
    ["repo:push"], address inside the block, body that decodes) runs the
    push handler on the decoded event: the answer is 204 whenever the
    handler returns, whatever it did; what the handler raises leaves [post];
    the storage is the one the handler left. *)
Theorem accepted_request_runs_handler request org_id s organization remote_addr
    address event :
  (Organization_objects_get_from_cache org_id s).1 = Return organization →
  body request ≠ "" →
  META request !! "HTTP_X_EVENT_KEY" = Some "repo:push" →
  META request !! "REMOTE_ADDR" = Some remote_addr →
  ip_address remote_addr = Some address →
  ip_in_network address BITBUCKET_IP_RANGE = true →
  json_loads (body request) = Return event →
  post request org_id s =
  (match (PushEventWebhook_call organization event s).1 with
   | Return _ => Return {| status := 204 |}
   | Raise e => Raise e
   end,
   (PushEventWebhook_call organization event s).2).
Proof.
  intros Horg Hbody Hkey Haddr Hip Hin Hjson. unfold post.
  unfold Organization_objects_get_from_cache in *. cbn in Horg. rewrite Horg.
  rewrite bool_decide_eq_false_2 by done.
  unfold getitem. rewrite Hkey. cbn. rewrite Haddr, Hip, Hin, Hjson. cbn.
  assert (get_handler "repo:push" = Some PushEventWebhook) as -> by reflexivity.
  unfold bind, ret, Handler_call.
  by destruct (PushEventWebhook_call organization event s) as [[] ?].
Qed.

(** X9.  A push event whose sender speaks IPv6 is answered 401, whatever
    the address: the block is an IPv4 block. *)
Theorem ipv6_sender_is_refused request org_id s organization remote_addr ip :
  (Organization_objects_get_from_cache org_id s).1 = Return organization →
  body request ≠ "" →
  META request !! "HTTP_X_EVENT_KEY" = Some "repo:push" →
  META request !! "REMOTE_ADDR" = Some remote_addr →
  ip_address remote_addr = Some (IPv6Address ip) →
  post request org_id s = (Return {| status := 401 |}, s).
Proof.
  intros Horg Hbody Hkey Haddr Hip. unfold post.
  unfold Organization_objects_get_from_cache in *. cbn in Horg. rewrite Horg.
  rewrite bool_decide_eq_false_2 by done.
  unfold getitem. rewrite Hkey. cbn. by rewrite Haddr, Hip.
Qed.

(** X10.  A body that does not decode.  When the decoder raises
    [JSONDecodeError] the answer is 400 and nothing is written; any other
    exception of the decoding (the [UnicodeDecodeError] of a body that is not
    UTF-8) is not caught and leaves [post]. *)
Theorem undecodable_body request org_id s organization remote_addr address e :
  (Organization_objects_get_from_cache org_id s).1 = Return organization →
  body request ≠ "" →
  META request !! "HTTP_X_EVENT_KEY" = Some "repo:push" →
  META request !! "REMOTE_ADDR" = Some remote_addr →
  ip_address remote_addr = Some address →
  ip_in_network address BITBUCKET_IP_RANGE = true →
  json_loads (body request) = Raise e →
  post request org_id s =
  (if decide (e = JSONDecodeError) then Return {| status := 400 |} else Raise e, s).
Proof.
  intros Horg Hbody Hkey Haddr Hip Hin Hjson. unfold post.
  unfold Organization_objects_get_from_cache in *. cbn in Horg. rewrite Horg.
  rewrite bool_decide_eq_false_2 by done.
  unfold getitem. rewrite Hkey. cbn. rewrite Haddr, Hip, Hin, Hjson. cbn.
  by destruct e.
Qed.

(** X11.  The order of the first checks: an organization that does not
    resolve is answered 400 whatever else the request holds; then an empty
    body is answered 400 whatever its headers; then a missing event-type
    header is answered 400 whatever the address of the sender. *)
Theorem first_checks_in_order request org_id s :
  ((Organization_objects_get_from_cache org_id s).1 = Raise DoesNotExist →
   post request org_id s = (Return {| status := 400 |}, s)) ∧
  (∀ organization,
     (Organization_objects_get_from_cache org_id s).1 = Return organization →
     (body request = "" →
      post request org_id s = (Return {| status := 400 |}, s)) ∧
     (body request ≠ "" → META request !! "HTTP_X_EVENT_KEY" = None →
      post request org_id s = (Return {| status := 400 |}, s))).
Proof.
  unfold post, Organization_objects_get_from_cache. cbn [fst]. split.
  - by intros ->.
  - intros organization ->. split.
    + intros Hbody. by rewrite bool_decide_eq_true_2.
    + intros Hbody Hkey. rewrite bool_decide_eq_false_2 by done.
      unfold getitem. by rewrite Hkey.
Qed.

End Endpoint_answers.


Lemma rejections_write_nothing_witness :
  status {| status := 401 |} ∈ [204; 400; 401; 405] ∧
  (status {| status := 401 |} ≠ 204 →
   (dispatch (collaborators := sample_collaborators) outside_request 1 sample_storage).2
     = sample_storage).
Proof.
  apply (rejections_write_nothing (collaborators := sample_collaborators)
           outside_request 1 sample_storage).
  reflexivity.
Defined.

Lemma only_push_events_are_handled_witness :
  get_handler "repo:fork" = None.
Proof.
  exact (proj1 (only_push_events_are_handled (collaborators := sample_collaborators)
                  outside_request 1 sample_storage sample_organization "repo:fork"
                  ltac:(discriminate))).
Defined.

Lemma accepted_request_runs_handler_witness :
  (post (collaborators := decoding_collaborators) inside_request 1 sample_storage).1
    = Return {| status := 204 |} ∧
  (commit_key <$> commits
     (post (collaborators := decoding_collaborators) inside_request 1 sample_storage).2)
    = ["deadbeef"].
Proof.
  rewrite (accepted_request_runs_handler (collaborators := decoding_collaborators)
             inside_request 1 sample_storage sample_organization "104.192.143.7"
             (IPv4Address (ipv4 104 192 143 7)) sample_event
             eq_refl ltac:(discriminate) eq_refl eq_refl eq_refl eq_refl eq_refl).
  vm_compute. done.
Defined.

Lemma ipv6_sender_is_refused_witness :
  let v6 := {| should_ignore_commit := λ _, false; parse_date_utc := λ _, None;
               ip_address := λ _, Some (IPv6Address 1);
               json_loads := λ _, Raise JSONDecodeError |} in
  post (collaborators := v6) outside_request 1 sample_storage
    = (Return {| status := 401 |}, sample_storage).
Proof.
  intros v6.
  apply (ipv6_sender_is_refused (collaborators := v6) outside_request 1 sample_storage
           sample_organization "8.8.8.8" 1 eq_refl ltac:(discriminate) eq_refl eq_refl
           eq_refl).
Defined.

Lemma undecodable_body_witness :
  post (collaborators := sample_collaborators)
    {| method := "POST";
       META := {[ "HTTP_X_EVENT_KEY" := "repo:push"; "REMOTE_ADDR" := "104.192.143.7" ]};
       body := "{" |} 1 sample_storage
  = (Return {| status := 400 |}, sample_storage).
Proof.
  apply (undecodable_body (collaborators := sample_collaborators) _ 1 sample_storage
           sample_organization "104.192.143.7" (IPv4Address (ipv4 104 192 143 7))
           JSONDecodeError); try reflexivity.
  discriminate.
Defined.

(** ** The handler: loops and cases *)

Lemma for_each_invariant {A S : Type} (I : S → Storage → Prop) (J : Storage → Prop)
    (xs : list A) (body : S → A → M S) acc s :
  (∀ acc s, I acc s → J s) →
  (∀ acc x s, x ∈ xs → I acc s →
     match body acc x s with
     | (Return acc', s') => I acc' s'
     | (Raise _, s') => J s'
     end) →
  I acc s →
  match for_each xs body acc s with
  | (Return acc', s') => I acc' s'
  | (Raise _, s') => J s'
  end.
Proof.
  intros HIJ. revert acc s. induction xs as [|x xs IH]; intros acc s Hbody HI; [done|].
  cbn [for_each]. unfold bind.
  pose proof (Hbody acc x s ltac:(left) HI) as Hx.
  destruct (body acc x s) as [[acc'|e] s']; [|done].
  apply IH; [|done]. intros acc0 x0 s0 Hx0. apply Hbody. by right.
Qed.

Section Handler_cases.
Context {collaborators : Collaborators}.

(** The two loops visit the commits of the payload in order. *)
Lemma changes_flatten organization repo (changes : list Change) acc s :
  for_each changes (process_change organization repo) acc s =
  for_each (concat ((λ change, default [] (change_commits change)) <$> changes))
    (process_commit organization repo) acc s.
Proof.
  revert acc s. induction changes as [|change changes IH]; intros acc s; [done|].
  cbn [for_each fmap list_fmap concat]. rewrite for_each_app.
  unfold bind, process_change at 1.
  destruct (for_each _ _ acc s) as [[acc'|e] s']; [|done]. apply IH.
Qed.

(** The ways author resolution ends. *)
Lemma resolve_author_cases organization raw email authors s :
  let result := resolve_author organization raw email authors s in
  let org := organization_id organization in
  (75 < Z.of_nat (String.length email) ∧ result = (Return (None, authors), s)) ∨
  (Z.of_nat (String.length email) ≤ 75 ∧
   ((∃ author, authors !! email = Some author ∧
               result = (Return (Some author, authors), s)) ∨
    (authors !! email = None ∧
     ((∃ author, filter (author_matches org email) (commit_authors s) = [author] ∧
                 result = (Return (Some author, <[email := author]> authors), s)) ∨
      (filter (author_matches org email) (commit_authors s) = [] ∧
       let author := {| author_id := next_id author_id (commit_authors s);
                        author_organization_id := org;
                        author_email := email;
                        author_name := author_display_name raw |} in
       result = (Return (Some author, <[email := author]> authors),
                 set_commit_authors (commit_authors s ++ [author]) s)) ∨
      (ambiguous org email s ∧ result = (Raise MultipleObjectsReturned, s)))))).
Proof.
  intros result org. subst result org. rewrite resolve_author_run.
  case_bool_decide as Hlen; [by left|]. right. split; [lia|].
  destruct (authors !! email) as [author|]; [left; by eexists|]. right. split; [done|].
  rewrite get_or_create_run. unfold ambiguous.
  destruct (filter _ _) as [|a [|b k]]; cbn.
  - right. left. done.
  - left. by eexists.
  - right. right. split; [lia|done].
Qed.

Lemma sync_name_returns repo full_name s :
  ∃ repo1, (sync_name repo full_name s).1 = Return repo1.
Proof.
  unfold sync_name. case_bool_decide; [|by eexists].
  unfold bind, Repository_save. destruct (existsb _ _); by eexists.
Qed.

Lemma for_each_raises {A S : Type} (P : exn → Prop) (xs : list A) (body : S → A → M S)
    acc s e :
  (∀ acc x s e, (body acc x s).1 = Raise e → P e) →
  (for_each xs body acc s).1 = Raise e → P e.
Proof.
  intros Hbody. revert acc s. induction xs as [|x xs IH]; intros acc s; [done|].
  cbn [for_each]. unfold bind. pose proof (Hbody acc x s) as Hx.
  destruct (body acc x s) as [[acc'|e'] s']; [apply IH|].
  cbn. intros [= ->]. by apply Hx.
Qed.

Lemma process_commit_raises organization repo authors commit s e :
  (process_commit organization repo authors commit s).1 = Raise e →
  e ∈ [AttributeError; MultipleObjectsReturned; ValueError].
Proof.
  rewrite process_commit_run.
  destruct (should_ignore_commit _); [done|].
  unfold parse_raw_user. destruct (re_search _) as [email|];
    [|intros [= <-]; set_solver].
  rewrite resolve_author_run. case_bool_decide.
  - rewrite insert_commit_run. destruct (parse_date_utc _); [by case_decide|].
    intros [= <-]. set_solver.
  - assert (∀ author (authors' : gmap string CommitAuthor) s1,
      (match insert_commit organization repo commit author s1 with
       | (Return _, s2) => (Return authors', s2)
       | (Raise e, s2) => (Raise e, s2)
       end).1 = Raise e → e ∈ [AttributeError; MultipleObjectsReturned; ValueError])
      as Hins.
    { intros author authors' s1. rewrite insert_commit_run.
      destruct (parse_date_utc _); [by case_decide|]. intros [= <-]. set_solver. }
    destruct (authors !! email); [apply Hins|].
    rewrite get_or_create_run.
    destruct (filter _ _) as [|a [|b k]]; cbn; [apply Hins|apply Hins|].
    intros [= <-]. set_solver.
Qed.

(** X13.  [Http404] means an unregistered repository, and nothing written.
    The handler raises [Http404] exactly when no Repository row of the
    organization and provider carries the payload's uuid (no commit of the
    payload can cause it), and then the storage is as it was: no name is
    synchronised, no author or commit is stored. *)
Theorem http404_means_unregistered organization event s :
  ((PushEventWebhook_call organization event s).1 = Raise Http404 ↔
   filter (repository_matches (organization_id organization) "bitbucket"
             (repository_uuid event)) (repositories s) = []) ∧
  ((PushEventWebhook_call organization event s).1 = Raise Http404 →
   (PushEventWebhook_call organization event s).2 = s).
Proof.
  assert ((PushEventWebhook_call organization event s).1 = Raise Http404 →
          filter (repository_matches (organization_id organization) "bitbucket"
                    (repository_uuid event)) (repositories s) = []) as Honly.
  { rewrite PushEventWebhook_call_run.
    destruct (filter _ (repositories s)) as [|repo [|b k]]; [done| |done].
    destruct (sync_name_returns repo (repository_full_name event) s) as [repo1 Hsync].
    destruct (sync_name _ _ s) as [[repo1'|e'] s1]; [|done].
    pose proof (for_each_raises
      (λ e, e ∈ [AttributeError; MultipleObjectsReturned; ValueError])
      (push_changes event) (process_change organization repo1') ∅ s1 Http404) as Hloop.
    destruct (for_each _ _ _ s1) as [[m|e''] s2]; [done|]. cbn. intros [= ->].
    assert (Http404 ∈ [AttributeError; MultipleObjectsReturned; ValueError]) as Hin.
    { apply Hloop; [|done]. intros acc change s' e'.
      unfold process_change.
      apply (for_each_raises
               (λ e, e ∈ [AttributeError; MultipleObjectsReturned; ValueError])).
      intros ????. apply process_commit_raises. }
    apply list_elem_of_In in Hin. cbn in Hin. intuition discriminate. }
  split; [split; [done|]|].
  - intros Hnone. by rewrite PushEventWebhook_call_run, Hnone.
  - intros Hraise. by rewrite PushEventWebhook_call_run, (Honly Hraise).
Qed.


Lemma loop_in_order_returns organization repo (commits : list CommitPayload) authors s :
  authors_unique s →
  Forall (λ commit,
            should_ignore_commit (message commit) = true ∨
            (∃ email, parse_raw_user (author_raw commit) = Return email) ∧
            is_Some (parse_date_utc (date commit)))
         commits →
  ∃ authors', (for_each commits (process_commit organization repo) authors s).1
              = Return authors'.
Proof.
  intros Hunique Hcommits. revert authors s Hunique.
  induction Hcommits as [|commit commits Hcommit _ IH]; intros authors s Hunique;
    [by eexists|].
  cbn [for_each]. unfold bind.
  assert (∃ authors1, (process_commit organization repo authors commit s).1
                      = Return authors1) as [authors1 Hstep].
  { destruct Hcommit as [Hig|[[email Hemail] [date_added Hdate]]].
    - rewrite process_commit_ignored by done. by eexists.
    - by eapply process_commit_returns. }
  pose proof (process_commit_grows organization repo authors commit s)
    as (_ & _ & _ & _ & Hamb).
  destruct (process_commit _ _ _ _ s) as [[authors1'|e] s1]; [|done].
  apply IH. by eapply authors_unique_preserved.
Qed.

(** X15.  A payload in order is taken whole: when the repository is
    registered once, the author constraint holds, and every commit of the
    payload either is ignored or has an author line that matches and a date
    that parses, the handler returns (no exception), whichever keys are
    already stored and however long the addresses are. *)
Theorem delivery_in_order_returns organization event s repo :
  filter (repository_matches (organization_id organization) "bitbucket"
            (repository_uuid event)) (repositories s) = [repo] →
  authors_unique s →
  Forall (λ commit,
            should_ignore_commit (message commit) = true ∨
            (∃ email, parse_raw_user (author_raw commit) = Return email) ∧
            is_Some (parse_date_utc (date commit)))
         (commits_of event) →
  (PushEventWebhook_call organization event s).1 = Return tt.
Proof.
  intros Hfind Hunique Hcommits.
  rewrite PushEventWebhook_call_run, Hfind.
  pose proof (sync_name_authors repo (repository_full_name event) s) as Hauthors.
  destruct (sync_name_returns repo (repository_full_name event) s) as [repo1 Hsync].
  destruct (sync_name _ _ s) as [[repo1'|e'] s1]; [|done]. cbn [snd] in Hauthors.
  rewrite changes_flatten. fold (commits_of event).
  destruct (loop_in_order_returns organization repo1' (commits_of event) ∅ s1)
    as [authors' Hloop]; [|done|].
  { unfold authors_unique. by rewrite Hauthors. }
  by destruct (for_each _ _ _ s1) as [[m|e] s2].
Qed.

End Handler_cases.

(** ** The handler: what a delivery adds *)

Lemma appends_for_refl org repo s : appends_for org repo s s.
Proof.
  split_and!; [done|done|exists []|exists []]; by rewrite app_nil_r.
Qed.

Lemma appends_for_trans org repo s1 s2 s3 :
  appends_for org repo s1 s2 → appends_for org repo s2 s3 → appends_for org repo s1 s3.
Proof.
  intros (Ho1 & Hr1 & (a1 & Ha1 & Hfa1) & (c1 & Hc1 & Hfc1))
         (Ho2 & Hr2 & (a2 & Ha2 & Hfa2) & (c2 & Hc2 & Hfc2)).
  split_and!; [congruence|congruence| |].
  - exists (a1 ++ a2). split; [by rewrite Ha2, Ha1, app_assoc|by apply Forall_app].
  - exists (c1 ++ c2). split; [by rewrite Hc2, Hc1, app_assoc|by apply Forall_app].
Qed.

Lemma for_each_related {A S : Type} (R : Storage → Storage → Prop)
    (xs : list A) (body : S → A → M S) acc s :
  (∀ s, R s s) →
  (∀ s1 s2 s3, R s1 s2 → R s2 s3 → R s1 s3) →
  (∀ acc x s, R s (body acc x s).2) →
  R s (for_each xs body acc s).2.
Proof.
  intros Hrefl Htrans Hbody. revert acc s.
  induction xs as [|x xs IH]; intros acc s; [apply Hrefl|].
  cbn [for_each]. unfold bind. pose proof (Hbody acc x s) as Hx.
  destruct (body acc x s) as [[acc'|e] s']; [|done].
  eapply Htrans; [exact Hx|apply IH].
Qed.

Section Delivery_adds.
Context {collaborators : Collaborators}.

Lemma process_commit_appends organization repo authors commit s :
  appends_for (organization_id organization) (repository_id repo) s
    (process_commit organization repo authors commit s).2.
Proof.
  rewrite process_commit_run.
  destruct (should_ignore_commit _); [apply appends_for_refl|].
  destruct (parse_raw_user _) as [email|]; [|apply appends_for_refl].
  assert (∀ author (authors' : gmap string CommitAuthor) s1,
    appends_for (organization_id organization) (repository_id repo) s1
      (match insert_commit organization repo commit author s1 with
       | (Return _, s2) => (Return authors', s2)
       | (Raise e, s2) => (Raise e, s2)
       end).2) as Hins.
  { intros author authors' s1. rewrite insert_commit_run.
    destruct (parse_date_utc _); [|apply appends_for_refl].
    case_decide; [apply appends_for_refl|]. cbn.
    split_and!; [done|done|exists []; by rewrite app_nil_r|].
    eexists. split; [done|]. by apply Forall_singleton. }
  destruct (resolve_author_cases organization (author_raw commit) email authors s)
    as [[_ ->]|[Hlen [(author & _ & ->)|[_ [(author & _ & ->)|[[_ ->]|[_ ->]]]]]]];
    try apply Hins; [|apply appends_for_refl].
  eapply appends_for_trans; [|apply Hins].
  split_and!; [done|done| |exists []; by rewrite app_nil_r].
  eexists. split; [done|]. by apply Forall_singleton.
Qed.

Lemma sync_name_frame repo full_name s :
  repo ∈ repositories s →
  ∃ repo1 s1,
    sync_name repo full_name s = (Return repo1, s1) ∧
    repository_id repo1 = repository_id repo ∧
    organizations s1 = organizations s ∧
    commit_authors s1 = commit_authors s ∧
    commits s1 = commits s ∧
    length (repositories s1) = length (repositories s).
Proof.
  intros Hin. unfold sync_name. case_bool_decide; [|by eexists _, _].
  unfold bind, Repository_save, ret. cbn [repository_id].
  assert (existsb (λ r, bool_decide (repository_id r = repository_id repo))
            (repositories s) = true) as ->.
  { apply existsb_exists. exists repo. split; [by apply list_elem_of_In|].
    by apply bool_decide_eq_true. }
  eexists _, _. split; [done|]. split_and!; try done.
  cbn. by rewrite length_fmap.
Qed.

(** X16.  A delivery only adds.  It leaves the organizations and the number
    of Repository rows as they were, keeps every CommitAuthor and Commit row
    it found, in place, and what it appends belongs to the organization of
    the request: author rows of that organization, commit rows of that
    organization and of one of its registered repositories. *)
Theorem delivery_appends_own_rows organization event s :
  let s' := (PushEventWebhook_call organization event s).2 in
  organizations s' = organizations s ∧
  length (repositories s') = length (repositories s) ∧
  ∃ new_authors new_commits,
    commit_authors s' = commit_authors s ++ new_authors ∧
    commits s' = commits s ++ new_commits ∧
    Forall (λ a, author_organization_id a = organization_id organization) new_authors ∧
    Forall (λ c, commit_organization_id c = organization_id organization ∧
                 ∃ repo, repo ∈ repositories s ∧
                         repository_organization_id repo = organization_id organization ∧
                         commit_repository_id c = repository_id repo)
           new_commits.
Proof.
  intros s'. subst s'. rewrite PushEventWebhook_call_run.
  destruct (filter _ (repositories s)) as [|repo [|b k]] eqn:Hfind; cbn [snd];
    [by split_and!; [..|exists [], []; rewrite !app_nil_r]| |
     by split_and!; [..|exists [], []; rewrite !app_nil_r]].
  assert (repo ∈ repositories s ∧
          repository_organization_id repo = organization_id organization)
    as [Hin Horg].
  { assert (repo ∈ filter (repository_matches (organization_id organization)
                             "bitbucket" (repository_uuid event)) (repositories s))
      as Hf by (rewrite Hfind; left).
    apply list_elem_of_filter in Hf as [(Horg & _ & _) Hin]. done. }
  destruct (sync_name_frame repo (repository_full_name event) s Hin)
    as (repo1 & s1 & -> & Hid & Ho & Ha & Hc & Hlen).
  assert (appends_for (organization_id organization) (repository_id repo1) s1
            (for_each (push_changes event) (process_change organization repo1) ∅ s1).2)
    as (Ho2 & Hr2 & (new_authors & Ha2 & Hfa) & (new_commits & Hc2 & Hfc)).
  { apply for_each_related; [apply appends_for_refl|apply appends_for_trans|].
    intros acc change s0. unfold process_change.
    apply for_each_related; [apply appends_for_refl|apply appends_for_trans|].
    intros. apply process_commit_appends. }
  assert ((match for_each (push_changes event) (process_change organization repo1) ∅ s1
           with
           | (Return _, s2) => (Return tt, s2)
           | (Raise e, s2) => (Raise e, s2)
           end).2
          = (for_each (push_changes event) (process_change organization repo1) ∅ s1).2)
    as -> by by destruct (for_each _ _ _ s1) as [[] ?].
  split_and!; [congruence|congruence|].
  exists new_authors, new_commits. split_and!; [congruence|congruence| |].
  - eapply Forall_impl; [exact Hfa|]. by intros a [? _].
  - eapply Forall_impl; [exact Hfc|]. intros c [? Hrepo]. split; [done|].
    exists repo. split_and!; [done|done|congruence].
Qed.

(** X17.  No address longer than the 75 characters of its column is ever
    stored: when every stored address fits, every address fits after a
    delivery. *)
Theorem stored_addresses_fit organization event s :
  emails_fit s → emails_fit (PushEventWebhook_call organization event s).2.
Proof.
  intros Hfit. rewrite PushEventWebhook_call_run.
  destruct (filter _ (repositories s)) as [|repo [|b k]]; [done| |done].
  pose proof (sync_name_authors repo (repository_full_name event) s) as Hsync.
  destruct (sync_name _ _ s) as [[repo1|e] s1]; cbn [snd] in *;
    [|unfold emails_fit; by rewrite Hsync].
  assert (appends_for (organization_id organization) (repository_id repo1) s1
            (for_each (push_changes event) (process_change organization repo1) ∅ s1).2)
    as (_ & _ & (new_authors & Ha2 & Hfa) & _).
  { apply for_each_related; [apply appends_for_refl|apply appends_for_trans|].
    intros acc change s0. unfold process_change.
    apply for_each_related; [apply appends_for_refl|apply appends_for_trans|].
    intros. apply process_commit_appends. }
  assert (emails_fit (for_each (push_changes event)
                        (process_change organization repo1) ∅ s1).2) as Hgoal.
  { intros author. rewrite Ha2, Hsync. intros [Hold|Hnew]%elem_of_app.
    - by apply Hfit.
    - rewrite Forall_forall in Hfa. by destruct (Hfa author Hnew). }
  by destruct (for_each _ _ _ s1) as [[] ?].
Qed.

End Delivery_adds.

(** ** The handler: invariants of the storage *)

Lemma commits_unique_append (s : Storage) (row : Commit) :
  commits_unique s →
  ¬ has_commit (commit_repository_id row) (commit_key row) s →
  commits_unique (set_commits (commits s ++ [row]) s).
Proof.
  intros Hunique Hnew repo key. cbn.
  rewrite filter_app, length_app, filter_cons, filter_nil.
  specialize (Hunique repo key).
  destruct (decide (commit_matches repo key row)) as [[<- <-]|_]; cbn; [|lia].
  destruct (filter _ (commits s)) as [|c k] eqn:Hf; [cbn; lia|].
  destruct Hnew. apply (Exists_filter (commit_matches _ _)). by rewrite Hf.
Qed.

Section Delivery_invariants.
Context {collaborators : Collaborators}.

Lemma resolve_author_commits organization raw email authors s :
  commits (resolve_author organization raw email authors s).2 = commits s.
Proof.
  destruct (resolve_author_cases organization raw email authors s)
    as [[_ ->]|[_ [(author & _ & ->)|[_ [(author & _ & ->)|[[_ ->]|[_ ->]]]]]]]; done.
Qed.

Lemma sync_name_commits repo full_name s :
  commits (sync_name repo full_name s).2 = commits s.
Proof.
  unfold sync_name. case_bool_decide; [|done].
  unfold bind, Repository_save. by destruct (existsb _ _).
Qed.

Lemma sync_name_organizations repo full_name s :
  organizations (sync_name repo full_name s).2 = organizations s.
Proof.
  unfold sync_name. case_bool_decide; [|done].
  unfold bind, Repository_save. by destruct (existsb _ _).
Qed.

Lemma insert_commit_unique organization repo commit author s :
  commits_unique s →
  commits_unique (insert_commit organization repo commit author s).2.
Proof.
  intros Hunique. rewrite insert_commit_run.
  destruct (parse_date_utc _) as [date_added|]; [|done].
  case_decide as Hhas; [done|]. by apply commits_unique_append.
Qed.

Lemma process_commit_unique organization repo authors commit s :
  commits_unique s →
  commits_unique (process_commit organization repo authors commit s).2.
Proof.
  intros Hunique. rewrite process_commit_run.
  destruct (should_ignore_commit _); [done|].
  destruct (parse_raw_user _) as [email|]; [|done].
  pose proof (resolve_author_commits organization (author_raw commit) email authors s)
    as Hsame.
  destruct (resolve_author _ _ _ _ s) as [[[author authors']|e] s1]; cbn [snd] in *;
    [|unfold commits_unique; by rewrite Hsame].
  assert (commits_unique s1) as Hs1 by (unfold commits_unique; by rewrite Hsame).
  pose proof (insert_commit_unique organization repo commit author s1 Hs1) as Hins.
  by destruct (insert_commit _ _ _ _ s1) as [[] s2].
Qed.

(** X18.  One Commit row per repository and key: when the storage holds at
    most one Commit row for every repository and key, it still does after a
    delivery, whatever the payload repeats. *)
Theorem commits_stay_unique organization event s :
  commits_unique s → commits_unique (PushEventWebhook_call organization event s).2.
Proof.
  intros Hunique. rewrite PushEventWebhook_call_run.
  destruct (filter _ (repositories s)) as [|repo [|b k]]; [done| |done].
  pose proof (sync_name_commits repo (repository_full_name event) s) as Hsync.
  destruct (sync_name _ _ s) as [[repo1|e] s1]; cbn [snd] in *;
    [|unfold commits_unique; by rewrite Hsync].
  rewrite changes_flatten.
  pose proof (for_each_invariant (λ _ s', commits_unique s') commits_unique
    (commits_of event) (process_commit organization repo1) ∅ s1) as Hloop.
  unfold commits_of in Hloop.
  destruct (for_each _ _ _ s1) as [[m|e] s2]; cbn; apply Hloop; try done.
  - intros acc commit s0 _ Hs0.
    pose proof (process_commit_unique organization repo1 acc commit s0 Hs0).
    by destruct (process_commit _ _ _ _ s0) as [[] ?].
  - unfold commits_unique. by rewrite Hsync.
  - intros acc commit s0 _ Hs0.
    pose proof (process_commit_unique organization repo1 acc commit s0 Hs0).
    by destruct (process_commit _ _ _ _ s0) as [[] ?].
  - unfold commits_unique. by rewrite Hsync.
Qed.

(** Author resolution keeps the memo in step with the storage, and the
    author it hands on is a stored row. *)
Lemma resolve_author_memo organization raw email authors s :
  memo_consistent (organization_id organization) authors s →
  match resolve_author organization raw email authors s with
  | (Return (author, authors'), s') =>
      memo_consistent (organization_id organization) authors' s' ∧
      (∀ a, author = Some a → a ∈ commit_authors s')
  | (Raise _, _) => True
  end.
Proof.
  intros Hmemo.
  destruct (resolve_author_cases organization raw email authors s)
    as [[_ ->]|[_ [(author & Hhit & ->)|[Hmiss [(author & Hone & ->)|[[Hnone ->]|[_ ->]]]]]]];
    [done| | | |done].
  - split; [done|]. intros a [= <-].
    pose proof (Hmemo _ _ Hhit) as Hone.
    assert (author ∈ filter (author_matches (organization_id organization) email)
                       (commit_authors s)) as Hin by (rewrite Hone; left).
    by apply list_elem_of_filter in Hin as [_ Hin].
  - split.
    + intros email' author'. rewrite lookup_insert.
      case_decide as Heq; [subst email'; by intros [= <-]|apply Hmemo].
    + intros a [= <-].
      assert (author ∈ filter (author_matches (organization_id organization) email)
                         (commit_authors s)) as Hin by (rewrite Hone; left).
      by apply list_elem_of_filter in Hin as [_ Hin].
  - cbn zeta. split.
    + intros email' author'. rewrite lookup_insert. cbn [commit_authors set_commit_authors].
      rewrite filter_app, filter_cons, filter_nil.
      case_decide as Heq.
      * subst email'. intros [= <-]. rewrite Hnone.
        by rewrite decide_True.
      * intros Hin. rewrite (Hmemo _ _ Hin).
        rewrite decide_False; [done|]. intros [_ Hemail]. cbn in Hemail. done.
    + intros a [= <-]. cbn. apply elem_of_app. right. left.
Qed.

Lemma process_commit_memo organization repo authors commit s :
  memo_consistent (organization_id organization) authors s →
  commit_authors_stored s →
  match process_commit organization repo authors commit s with
  | (Return authors', s') =>
      memo_consistent (organization_id organization) authors' s' ∧
      commit_authors_stored s'
  | (Raise _, s') => commit_authors_stored s'
  end.
Proof.
  intros Hmemo Hstored. rewrite process_commit_run.
  destruct (should_ignore_commit _); [done|].
  destruct (parse_raw_user _) as [email|]; [|done].
  pose proof (resolve_author_memo organization (author_raw commit) email authors s Hmemo)
    as Hres.
  pose proof (resolve_author_commits organization (author_raw commit) email authors s)
    as Hsame.
  pose proof (resolve_author_grows organization (author_raw commit) email authors s)
    as (_ & _ & [rows Hrows] & _ & _).
  destruct (resolve_author _ _ _ _ s) as [[[author authors']|e] s1]; cbn [snd] in *.
  - destruct Hres as [Hmemo1 Hauthor].
    assert (commit_authors_stored s1) as Hstored1.
    { intros c a. rewrite Hsame, Hrows. intros Hc Ha.
      apply elem_of_app. left. by eapply Hstored. }
    rewrite insert_commit_run.
    destruct (parse_date_utc _) as [date_added|]; [|done].
    case_decide; [done|]. split; [done|].
    intros c a. cbn. intros [Hold|Hnew%list_elem_of_singleton]%elem_of_app.
    + by apply Hstored1.
    + subst c. cbn. apply Hauthor.
  - intros c a. rewrite Hsame, Hrows. intros Hc Ha.
    apply elem_of_app. left. by eapply Hstored.
Qed.

(** X19.  No Commit row points at an author that is not stored: when every
    author a Commit row refers to is a CommitAuthor row of the storage, this
    still holds after a delivery. *)
Theorem commit_authors_stay_stored organization event s :
  commit_authors_stored s →
  commit_authors_stored (PushEventWebhook_call organization event s).2.
Proof.
  intros Hstored. rewrite PushEventWebhook_call_run.
  destruct (filter _ (repositories s)) as [|repo [|b k]]; [done| |done].
  pose proof (sync_name_commits repo (repository_full_name event) s) as Hcommits.
  pose proof (sync_name_authors repo (repository_full_name event) s) as Hauthors.
  assert (commit_authors_stored (sync_name repo (repository_full_name event) s).2)
    as Hstored1 by (unfold commit_authors_stored; by rewrite Hcommits, Hauthors).
  destruct (sync_name _ _ s) as [[repo1|e] s1]; cbn [snd] in *; [|done].
  rewrite changes_flatten.
  pose proof (for_each_invariant
    (λ authors s', memo_consistent (organization_id organization) authors s' ∧
                   commit_authors_stored s')
    commit_authors_stored
    (commits_of event) (process_commit organization repo1) ∅ s1) as Hloop.
  unfold commits_of in Hloop.
  destruct (for_each _ _ _ s1) as [[m|e] s2]; cbn; apply Hloop; try tauto.
  - intros acc commit s0 _ [Hm Hs]. by apply process_commit_memo.
  - split; [|done]. intros email author. by rewrite lookup_empty.
  - intros acc commit s0 _ [Hm Hs]. by apply process_commit_memo.
  - split; [|done]. intros email author. by rewrite lookup_empty.
Qed.

Lemma insert_commit_authors organization repo commit author s :
  commit_authors (insert_commit organization repo commit author s).2 = commit_authors s.
Proof.
  rewrite insert_commit_run. destruct (parse_date_utc _); [|done]. by case_decide.
Qed.

(** X20.  The memo of a request never goes stale.  Started from a memo in
    step with the storage (the empty memo is), the loop over the commits
    ends with a memo each entry of which is the one stored row of its
    address: what [get_or_create] would return for it, with nothing
    written. *)
Theorem memo_stays_in_step organization repo (commits : list CommitPayload) authors s :
  memo_consistent (organization_id organization) authors s →
  match for_each commits (process_commit organization repo) authors s with
  | (Return authors', s') =>
      ∀ email author name,
        authors' !! email = Some author →
        CommitAuthor_objects_get_or_create (organization_id organization) email name s'
          = (Return author, s')
  | (Raise _, _) => True
  end.
Proof.
  intros Hmemo.
  pose proof (for_each_invariant
    (λ authors s', memo_consistent (organization_id organization) authors s')
    (λ _, True) commits (process_commit organization repo) authors s) as Hloop.
  destruct (for_each _ _ _ s) as [[authors'|e] s']; [|done].
  intros email author name Hin. rewrite get_or_create_run.
  rewrite (Hloop ltac:(done)); [done| |done|done].
  intros acc commit s0 _ Hm. rewrite process_commit_run.
  destruct (should_ignore_commit _); [done|].
  destruct (parse_raw_user _) as [email'|]; [|done].
  pose proof (resolve_author_memo organization (author_raw commit) email' acc s0 Hm)
    as Hres.
  destruct (resolve_author _ _ _ _ s0) as [[[a acc']|e] s1]; [|done].
  destruct Hres as [Hm1 _].
  pose proof (insert_commit_authors organization repo commit a s1) as Hsame.
  destruct (insert_commit _ _ _ _ s1) as [[] s2]; [|done].
  unfold memo_consistent. cbn [snd] in Hsame. by rewrite Hsame.
Qed.

End Delivery_invariants.

(** ** The handler: what a delivery stores *)

Section Delivery_stores.
Context {collaborators : Collaborators}.

Lemma process_commit_stores_key organization repo authors commit s authors' s' :
  process_commit organization repo authors commit s = (Return authors', s') →
  should_ignore_commit (message commit) = false →
  has_commit (repository_id repo) (hash commit) s'.
Proof.
  rewrite process_commit_run. intros Hstep Hig. rewrite Hig in Hstep.
  destruct (parse_raw_user _) as [email|]; [|done].
  pose proof (resolve_author_commits organization (author_raw commit) email authors s)
    as Hsame.
  destruct (resolve_author _ _ _ _ s) as [[[author authors1]|e] s1]; [|done].
  rewrite insert_commit_run in Hstep.
  destruct (parse_date_utc _) as [date_added|]; [|done].
  case_decide as Hhas; simplify_eq; [done|].
  unfold has_commit. cbn. apply Exists_app. right. by left.
Qed.

Lemma loop_stores_keys organization repo (commits : list CommitPayload) authors s :
  match for_each commits (process_commit organization repo) authors s with
  | (Return _, s') =>
      ∀ commit, commit ∈ commits → should_ignore_commit (message commit) = false →
                has_commit (repository_id repo) (hash commit) s'
  | (Raise _, _) => True
  end.
Proof.
  revert authors s. induction commits as [|commit commits IH]; intros authors s.
  - cbn. intros commit Hin. by apply elem_of_nil in Hin.
  - cbn [for_each]. unfold bind.
    pose proof (process_commit_stores_key organization repo authors commit s) as Hkey.
    destruct (process_commit _ _ _ _ s) as [[authors1|e] s1]; [|done].
    specialize (IH authors1 s1).
    pose proof (for_each_grows commits (process_commit organization repo) authors1 s1
                  (process_commit_grows organization repo)) as Hgrows.
    destruct (for_each _ _ _ s1) as [[authors2|e] s2]; [|done].
    intros c [->|Hin]%elem_of_cons Hig; [|by apply IH].
    eapply grows_has_commit; [exact Hgrows|]. by eapply Hkey.
Qed.

(** X21.  No commit is lost: when a delivery returns, every commit of the
    payload that the ignore rule lets through is in the storage under the
    registered repository and its hash, newly written or there before. *)
Theorem returned_delivery_stored_every_commit organization event s repo :
  filter (repository_matches (organization_id organization) "bitbucket"
            (repository_uuid event)) (repositories s) = [repo] →
  (PushEventWebhook_call organization event s).1 = Return tt →
  ∀ commit, commit ∈ commits_of event →
            should_ignore_commit (message commit) = false →
            has_commit (repository_id repo) (hash commit)
              (PushEventWebhook_call organization event s).2.
Proof.
  intros Hfind. rewrite PushEventWebhook_call_run, Hfind.
  assert (repo ∈ repositories s) as Hin.
  { assert (repo ∈ filter (repository_matches (organization_id organization)
                             "bitbucket" (repository_uuid event)) (repositories s))
      as Hf by (rewrite Hfind; left).
    by apply list_elem_of_filter in Hf as [_ Hf]. }
  destruct (sync_name_frame repo (repository_full_name event) s Hin)
    as (repo1 & s1 & -> & Hid & _).
  rewrite changes_flatten. fold (commits_of event).
  pose proof (loop_stores_keys organization repo1 (commits_of event) ∅ s1) as Hloop.
  destruct (for_each _ _ _ s1) as [[m|e] s2]; [|done].
  intros _ commit Hcommit Hig. cbn. rewrite <- Hid. by apply Hloop.
Qed.


(** X23.  A known author is reused as stored.  For a commit whose address
    has its one CommitAuthor row, and a memo that is empty at this address
    or holds that row, no CommitAuthor row is written or changed (the
    stored name stays, whatever name the author line carries), and a new
    commit is stored with that row as its author. *)
Theorem known_author_is_reused organization repo authors commit email author s :
  should_ignore_commit (message commit) = false →
  parse_raw_user (author_raw commit) = Return email →
  Z.of_nat (String.length email) ≤ 75 →
  filter (author_matches (organization_id organization) email) (commit_authors s)
    = [author] →
  authors !! email = None ∨ authors !! email = Some author →
  let result := process_commit organization repo authors commit s in
  commit_authors result.2 = commit_authors s ∧
  ∀ date_added,
    parse_date_utc (date commit) = Some date_added →
    ¬ has_commit (repository_id repo) (hash commit) s →
    commits result.2 =
    commits s ++ [commit_row organization repo commit (Some author) date_added s].
Proof.
  intros Hig Hparse Hlen Hone Hmemo result. subst result.
  rewrite process_commit_run, Hig, Hparse, resolve_author_run.
  rewrite bool_decide_eq_false_2 by lia.
  assert (∀ (authors' : gmap string CommitAuthor),
    let result := match insert_commit organization repo commit (Some author) s with
                  | (Return _, s2) => (Return authors', s2)
                  | (Raise e, s2) => (Raise e, s2)
                  end in
    commit_authors result.2 = commit_authors s ∧
    ∀ date_added,
      parse_date_utc (date commit) = Some date_added →
      ¬ has_commit (repository_id repo) (hash commit) s →
      commits result.2 =
      commits s ++ [commit_row organization repo commit (Some author) date_added s])
    as Hins.
  { intros authors'. cbn zeta. rewrite insert_commit_run.
    destruct (parse_date_utc _) as [t|]; [|done].
    case_decide; [done|]. split; [done|]. by intros ? [= <-] _. }
  destruct Hmemo as [-> | ->]; [|apply Hins].
  rewrite get_or_create_run, Hone. apply Hins.
Qed.

(** X24.  The name is brought in step, and nothing else of the Repository
    rows.  With distinct primary keys and the repository registered once,
    after a delivery the Repository rows are those before, in place, except
    that the registered row has the payload's full name under ["name"] of
    its configuration; its other configuration keys are as before. *)
Theorem name_is_synchronised organization event s repo :
  repository_ids_unique s →
  filter (repository_matches (organization_id organization) "bitbucket"
            (repository_uuid event)) (repositories s) = [repo] →
  let renamed :=
    {| repository_id := repository_id repo;
       repository_organization_id := repository_organization_id repo;
       repository_provider := repository_provider repo;
       repository_external_id := repository_external_id repo;
       repository_config :=
         <["name" := repository_full_name event]> (repository_config repo) |} in
  repositories (PushEventWebhook_call organization event s).2 =
    (λ r, if decide (r = repo) then renamed else r) <$> repositories s ∧
  repository_config renamed !! "name" = Some (repository_full_name event) ∧
  ∀ key, key ≠ "name" →
         repository_config renamed !! key = repository_config repo !! key.
Proof.
  intros Hids Hfind renamed. split_and!.
  - rewrite PushEventWebhook_call_run, Hfind.
    assert (repo ∈ repositories s) as Hin.
    { assert (repo ∈ filter (repository_matches (organization_id organization)
                               "bitbucket" (repository_uuid event)) (repositories s))
        as Hf by (rewrite Hfind; left).
      by apply list_elem_of_filter in Hf as [_ Hf]. }
    assert (repositories (sync_name repo (repository_full_name event) s).2 =
            (λ r, if decide (r = repo) then renamed else r) <$> repositories s) as Hsync.
    { unfold sync_name. case_bool_decide as Hname.
      - unfold bind, Repository_save, ret. cbn [repository_id].
        assert (existsb (λ r, bool_decide (repository_id r = repository_id repo))
                  (repositories s) = true) as ->.
        { apply existsb_exists. exists repo. split; [by apply list_elem_of_In|].
          by apply bool_decide_eq_true. }
        cbn. apply list_fmap_ext. intros i r Hr.
        apply list_elem_of_lookup_2 in Hr.
        case_bool_decide as Hid; case_decide as Heq; try done.
        + destruct Heq. by apply (NoDup_fmap_eq repository_id (repositories s)).
        + by subst r.
      - cbn. rewrite <- (list_fmap_id (repositories s)) at 1.
        apply list_fmap_ext. intros i r Hr. cbn.
        case_decide as Heq; [|done]. subst r. subst renamed.
        rewrite insert_id by done. by destruct repo. }
    destruct (sync_name _ _ s) as [[repo1|e] s1]; cbn [snd] in *; [|done].
    pose proof (for_each_grows (push_changes event) (process_change organization repo1)
                  ∅ s1 (process_change_grows organization repo1)) as (_ & Hrepos & _).
    destruct (for_each _ _ _ s1) as [[] s2]; cbn [snd] in *; congruence.
  - apply lookup_insert_eq.
  - intros key Hkey. by apply lookup_insert_ne.
Qed.

End Delivery_stores.

(** ** The endpoint: a request sent twice *)

Section Request_twice.
Context {collaborators : Collaborators}.

(** A delivery run again on the storage it left ends the same way and
    leaves that storage. *)
Lemma delivery_replayed organization event s :
  repository_ids_unique s →
  PushEventWebhook_call organization event (PushEventWebhook_call organization event s).2
  = PushEventWebhook_call organization event s.
Proof.
  intros Hids. rewrite (PushEventWebhook_call_run organization event s).
  destruct (filter _ (repositories s)) as [|repo [|b k]] eqn:Hfind; cbn [snd].
  - by rewrite PushEventWebhook_call_run, Hfind.
  - destruct (sync_name_run _ _ repo (repository_full_name event) s Hids Hfind)
      as (repo1 & s1 & -> & Hid & Ho & Ha & Hc & Hfind1 & Hsync).
    pose proof (changes_redelivered organization repo1 (push_changes event) s1) as Hre.
    pose proof (for_each_grows (push_changes event) (process_change organization repo1)
                  ∅ s1 (process_change_grows organization repo1)) as (_ & Hrepos & _).
    cbn zeta in Hre.
    destruct (for_each _ _ _ s1) as [[m1|e] s2]; cbn [fst snd] in *.
    + destruct Hre as [n1 Hre].
      rewrite PushEventWebhook_call_run, Hrepos. by rewrite Hfind1, Hsync, Hre.
    + rewrite PushEventWebhook_call_run, Hrepos. by rewrite Hfind1, Hsync, Hre.
  - by rewrite PushEventWebhook_call_run, Hfind.
Qed.

Lemma delivery_organizations organization event s :
  organizations (PushEventWebhook_call organization event s).2 = organizations s.
Proof.
  rewrite PushEventWebhook_call_run.
  destruct (filter _ (repositories s)) as [|repo [|b k]]; [done| |done].
  pose proof (sync_name_organizations repo (repository_full_name event) s) as Hsync.
  destruct (sync_name _ _ s) as [[repo1|e] s1]; cbn [snd] in *; [|done].
  pose proof (for_each_grows (push_changes event) (process_change organization repo1)
                ∅ s1 (process_change_grows organization repo1)) as (Horgs & _).
  destruct (for_each _ _ _ s1) as [[] s2]; cbn [snd] in *; congruence.
Qed.

(** What [post] does once every check is passed. *)
Lemma post_on_accepted request org_id s organization event_type remote_addr address
    event :
  objects_get (filter (λ o, organization_id o = org_id) (organizations s))
    = Return organization →
  body request ≠ "" →
  META request !! "HTTP_X_EVENT_KEY" = Some event_type →
  get_handler event_type = Some PushEventWebhook →
  META request !! "REMOTE_ADDR" = Some remote_addr →
  ip_address remote_addr = Some address →
  negb (ip_in_network address BITBUCKET_IP_RANGE) = false →
  json_loads (body request) = Return event →
  post request org_id s =
  (match (PushEventWebhook_call organization event s).1 with
   | Return _ => Return {| status := 204 |}
   | Raise e => Raise e
   end,
   (PushEventWebhook_call organization event s).2).
Proof.
  intros Horg Hbody Hkey Hhandler Haddr Hip Hin Hjson.
  unfold post, Organization_objects_get_from_cache, getitem.
  rewrite Horg, bool_decide_eq_false_2 by done.
  rewrite Hkey, Hhandler, Haddr, Hip, Hin, Hjson.
  unfold bind, ret, Handler_call.
  by destruct (PushEventWebhook_call organization event s) as [[] ?].
Qed.

(** A request is refused or skipped with the storage as it was, or it
    passes every check. *)
Lemma post_cases request org_id s :
  (post request org_id s).2 = s ∨
  ∃ organization event_type remote_addr address event,
    objects_get (filter (λ o, organization_id o = org_id) (organizations s))
      = Return organization ∧
    body request ≠ "" ∧
    META request !! "HTTP_X_EVENT_KEY" = Some event_type ∧
    get_handler event_type = Some PushEventWebhook ∧
    META request !! "REMOTE_ADDR" = Some remote_addr ∧
    ip_address remote_addr = Some address ∧
    negb (ip_in_network address BITBUCKET_IP_RANGE) = false ∧
    json_loads (body request) = Return event.
Proof.
  unfold post, Organization_objects_get_from_cache, getitem.
  destruct (objects_get _) as [organization|e] eqn:Horg; [|left; by destruct e].
  case_bool_decide as Hbody; [by left|].
  destruct (META request !! "HTTP_X_EVENT_KEY") as [event_type|] eqn:Hkey; [|by left].
  destruct (get_handler event_type) as [[]|] eqn:Hhandler; [|by left].
  destruct (META request !! "REMOTE_ADDR") as [remote_addr|] eqn:Haddr; [|by left].
  destruct (ip_address remote_addr) as [address|] eqn:Hip; [|by left].
  destruct (negb _) eqn:Hin; [by left|].
  destruct (json_loads (body request)) as [event|e] eqn:Hjson; [|left; by destruct e].
  right. by eexists organization, event_type, remote_addr, address, event.
Qed.

(** X25.  A request sent twice.  On a storage whose Repository rows have
    distinct primary keys, [post] run again on the storage it left gives the
    answer (or the exception) it gave and leaves that storage: the provider
    may repeat any request, accepted or refused. *)
Theorem repeated_request_changes_nothing request org_id s :
  repository_ids_unique s →
  post request org_id (post request org_id s).2 = post request org_id s.
Proof.
  intros Hids.
  destruct (post_cases request org_id s)
    as [->|(organization & event_type & remote_addr & address & event &
            Horg & Hbody & Hkey & Hhandler & Haddr & Hip & Hin & Hjson)]; [done|].
  rewrite (post_on_accepted request org_id s organization event_type remote_addr
             address event) by done.
  cbn [snd].
  rewrite (post_on_accepted request org_id _ organization event_type remote_addr
             address event); try done.
  - by rewrite delivery_replayed.
  - by rewrite delivery_organizations.
Qed.

End Request_twice.

(** ** Instances of the further properties *)

Lemma repeated_request_changes_nothing_witness :
  let first := post (collaborators := decoding_collaborators) inside_request 1
                 sample_storage in
  post (collaborators := decoding_collaborators) inside_request 1 first.2 = first.
Proof.
  apply (repeated_request_changes_nothing (collaborators := decoding_collaborators)).
  unfold repository_ids_unique. cbn. apply NoDup_singleton.
Defined.


Lemma delivery_in_order_returns_witness :
  (PushEventWebhook_call (collaborators := sample_collaborators) sample_organization
     sample_event sample_storage).1 = Return tt.
Proof.
  apply (delivery_in_order_returns (collaborators := sample_collaborators)
           sample_organization sample_event sample_storage sample_repository).
  - reflexivity.
  - intros org email. cbn. lia.
  - apply Forall_singleton. right. split; [by exists "jane@x.com"|by exists 1609459200].
Defined.

Lemma stored_addresses_fit_witness :
  emails_fit (PushEventWebhook_call (collaborators := sample_collaborators)
                sample_organization sample_event sample_storage).2.
Proof.
  apply (stored_addresses_fit (collaborators := sample_collaborators)).
  intros author Hin. by apply elem_of_nil in Hin.
Defined.

Lemma commits_stay_unique_witness :
  commits_unique (PushEventWebhook_call (collaborators := sample_collaborators)
                    sample_organization sample_event storage_with_commit).2.
Proof.
  apply (commits_stay_unique (collaborators := sample_collaborators)).
  intros repo key. unfold storage_with_commit. cbn [commits set_commits].
  rewrite filter_cons, filter_nil. case_decide; cbn; lia.
Defined.

Lemma commit_authors_stay_stored_witness :
  commit_authors_stored
    (PushEventWebhook_call (collaborators := sample_collaborators)
       sample_organization sample_event sample_storage).2.
Proof.
  apply (commit_authors_stay_stored (collaborators := sample_collaborators)).
  intros commit author Hin. by apply elem_of_nil in Hin.
Defined.

Lemma memo_stays_in_step_witness :
  match for_each [sample_commit]
          (process_commit (collaborators := sample_collaborators) sample_organization
             sample_repository) ∅ sample_storage with
  | (Return authors', s') =>
      ∀ email author name,
        authors' !! email = Some author →
        CommitAuthor_objects_get_or_create 1 email name s' = (Return author, s')
  | (Raise _, _) => True
  end.
Proof.
  apply (memo_stays_in_step (collaborators := sample_collaborators) sample_organization
           sample_repository [sample_commit] ∅ sample_storage).
  intros email author. by rewrite lookup_empty.
Defined.

Lemma returned_delivery_stored_every_commit_witness :
  has_commit 10 "deadbeef"
    (PushEventWebhook_call (collaborators := sample_collaborators)
       sample_organization sample_event sample_storage).2.
Proof.
  apply (returned_delivery_stored_every_commit (collaborators := sample_collaborators)
           sample_organization sample_event sample_storage sample_repository
           eq_refl ltac:(vm_compute; reflexivity) sample_commit).
  - left.
  - reflexivity.
Defined.


Lemma known_author_is_reused_witness :
  let jane := {| author_id := 1; author_organization_id := 1;
                 author_email := "jane@x.com"; author_name := "J. Doe" |} in
  commit_authors
    (process_commit (collaborators := sample_collaborators) sample_organization
       sample_repository ∅ sample_commit (set_commit_authors [jane] sample_storage)).2
  = [jane].
Proof.
  intros jane.
  apply (known_author_is_reused (collaborators := sample_collaborators)
           sample_organization sample_repository ∅ sample_commit "jane@x.com" jane
           (set_commit_authors [jane] sample_storage)).
  - reflexivity.
  - reflexivity.
  - vm_compute. discriminate.
  - reflexivity.
  - left. apply lookup_empty.
Defined.

Lemma name_is_synchronised_witness :
  (repository_config <$> repositories
     (PushEventWebhook_call (collaborators := sample_collaborators)
        sample_organization sample_event sample_storage).2)
  = [ <["name" := "new/name"]> (repository_config sample_repository) ].
Proof.
  destruct (name_is_synchronised (collaborators := sample_collaborators)
              sample_organization sample_event sample_storage sample_repository)
    as (-> & _ & _).
  - unfold repository_ids_unique. cbn. apply NoDup_singleton.
  - reflexivity.
  - cbn. by rewrite decide_True.
Defined.

(** ** The handler: grouping and splitting a payload *)

Section Payload_shape.
Context {collaborators : Collaborators}.

Lemma PushEventWebhook_call_flat organization event s :
  PushEventWebhook_call organization event s =
  match filter (repository_matches (organization_id organization) "bitbucket"
                  (repository_uuid event)) (repositories s) with
  | [] => (Raise Http404, s)
  | [repo] =>
      match sync_name repo (repository_full_name event) s with
      | (Return repo1, s1) =>
          without_memo
            (for_each (commits_of event) (process_commit organization repo1) ∅ s1)
      | (Raise e, s1) => (Raise e, s1)
      end
  | _ :: _ :: _ => (Raise MultipleObjectsReturned, s)
  end.
Proof.
  rewrite PushEventWebhook_call_run.
  destruct (filter _ (repositories s)) as [|repo [|b k]]; [done| |done].
  destruct (sync_name _ _ s) as [[repo1|e] s1]; [|done].
  by rewrite changes_flatten.
Qed.

(** X26.  How the commits are grouped into change-sets does not matter: a
    payload does what the payload with the same commits, in the same order,
    in one change-set does (the memo of authors spans the change-sets). *)
Theorem grouping_into_change_sets_is_irrelevant organization event s :
  PushEventWebhook_call organization event s =
  PushEventWebhook_call organization
    {| repository_uuid := repository_uuid event;
       repository_full_name := repository_full_name event;
       push_changes := [ {| change_commits := Some (commits_of event) |} ] |} s.
Proof.
  rewrite !PushEventWebhook_call_flat. cbn [repository_uuid repository_full_name].
  destruct (filter _ (repositories s)) as [|repo [|b k]]; [done| |done].
  destruct (sync_name _ _ s) as [[repo1|e] s1]; [|done].
  unfold commits_of at 2. cbn. by rewrite app_nil_r.
Qed.

(** With a memo in step with the storage, author resolution gives the author
    and the storage it gives with the empty memo. *)
Lemma resolve_author_any_memo organization raw email authors s :
  memo_consistent (organization_id organization) authors s →
  without_memo (resolve_author organization raw email authors s) =
  without_memo (resolve_author organization raw email ∅ s) ∧
  match resolve_author organization raw email authors s,
        resolve_author organization raw email ∅ s with
  | (Return (a, _), _), (Return (b, _), _) => a = b
  | (Raise _, _), (Raise _, _) => True
  | _, _ => False
  end.
Proof.
  intros Hmemo. rewrite !resolve_author_run. case_bool_decide; [done|].
  rewrite lookup_empty.
  destruct (authors !! email) as [author|] eqn:Hhit.
  - rewrite get_or_create_run, (Hmemo _ _ Hhit). done.
  - by destruct (CommitAuthor_objects_get_or_create _ _ _ s) as [[] ?].
Qed.

Lemma process_commit_any_memo organization repo authors authors0 commit s :
  memo_consistent (organization_id organization) authors s →
  memo_consistent (organization_id organization) authors0 s →
  without_memo (process_commit organization repo authors commit s) =
  without_memo (process_commit organization repo authors0 commit s) ∧
  match process_commit organization repo authors commit s,
        process_commit organization repo authors0 commit s with
  | (Return m, s1), (Return n, _) =>
      memo_consistent (organization_id organization) m s1 ∧
      memo_consistent (organization_id organization) n s1
  | _, _ => True
  end.
Proof.
  intros Hm Hn. rewrite !process_commit_run.
  destruct (should_ignore_commit _); [done|].
  destruct (parse_raw_user _) as [email|]; [|done].
  pose proof (resolve_author_any_memo organization (author_raw commit) email authors s Hm)
    as [Hsame1 Hauthor1].
  pose proof (resolve_author_any_memo organization (author_raw commit) email authors0 s Hn)
    as [Hsame2 Hauthor2].
  pose proof (resolve_author_memo organization (author_raw commit) email authors s Hm)
    as Hmemo1.
  pose proof (resolve_author_memo organization (author_raw commit) email authors0 s Hn)
    as Hmemo2.
  destruct (resolve_author _ _ _ authors s) as [[[a m1]|e1] s1];
    destruct (resolve_author _ _ _ authors0 s) as [[[b n1]|e2] s2];
    destruct (resolve_author _ _ _ ∅ s) as [[[c k1]|e3] s3];
    cbn in Hsame1, Hsame2; simplify_eq; try done.
  destruct Hmemo1 as [Hm1 _]. destruct Hmemo2 as [Hn1 _].
  pose proof (insert_commit_authors organization repo commit c s3) as Hauthors.
  destruct (insert_commit _ _ _ _ s3) as [[] s4]; [|done]. cbn [snd] in Hauthors.
  split; [done|]. unfold memo_consistent. by rewrite Hauthors.
Qed.

Lemma loop_any_memo organization repo (commits : list CommitPayload) authors authors0 s :
  memo_consistent (organization_id organization) authors s →
  memo_consistent (organization_id organization) authors0 s →
  without_memo (for_each commits (process_commit organization repo) authors s) =
  without_memo (for_each commits (process_commit organization repo) authors0 s).
Proof.
  revert authors authors0 s.
  induction commits as [|commit commits IH]; intros authors authors0 s Hm Hn; [done|].
  cbn [for_each]. unfold bind.
  destruct (process_commit_any_memo organization repo authors authors0 commit s Hm Hn)
    as [Hsame Hmemo].
  destruct (process_commit _ _ authors _ s) as [[m|e1] s1];
    destruct (process_commit _ _ authors0 _ s) as [[n|e2] s2];
    cbn in Hsame; simplify_eq; [|done].
  destruct Hmemo as [Hm1 Hn1]. by apply IH.
Qed.

Lemma loop_memo_consistent organization repo (commits : list CommitPayload) authors s :
  memo_consistent (organization_id organization) authors s →
  match for_each commits (process_commit organization repo) authors s with
  | (Return authors', s') => memo_consistent (organization_id organization) authors' s'
  | (Raise _, _) => True
  end.
Proof.
  intros Hmemo.
  apply (for_each_invariant
    (λ authors s', memo_consistent (organization_id organization) authors s')
    (λ _, True)); [done| |done].
  intros acc commit s0 _ Hm.
  destruct (process_commit_any_memo organization repo acc acc commit s0 Hm Hm)
    as [_ Hstep].
  destruct (process_commit _ _ acc _ s0) as [[m|e] s1]; [|done]. by destruct Hstep.
Qed.

(** X27.  A payload may be split.  On a storage whose Repository rows have
    distinct primary keys, when the delivery of the first change-sets
    returns, the delivery of all change-sets in one payload ends as, and
    leaves the storage of, the delivery of the first change-sets followed by
    the delivery of the remaining ones. *)
Theorem payload_may_be_split organization uuid full_name changes1 changes2 s :
  repository_ids_unique s →
  let deliver changes :=
    PushEventWebhook_call organization
      {| repository_uuid := uuid; repository_full_name := full_name;
         push_changes := changes |} in
  (deliver changes1 s).1 = Return tt →
  deliver (changes1 ++ changes2) s = deliver changes2 (deliver changes1 s).2.
Proof.
  intros Hids deliver. subst deliver. cbn beta.
  rewrite (PushEventWebhook_call_flat organization _ s).
  rewrite (PushEventWebhook_call_flat organization
             {| repository_uuid := uuid; repository_full_name := full_name;
                push_changes := changes1 ++ changes2 |} s).
  cbn [repository_uuid repository_full_name].
  destruct (filter _ (repositories s)) as [|repo [|b k]] eqn:Hfind; [done| |done].
  destruct (sync_name_run _ _ repo full_name s Hids Hfind)
    as (repo1 & s1 & -> & Hid & Ho & Ha & Hc & Hfind1 & Hsync).
  unfold commits_of. cbn [push_changes]. rewrite fmap_app, concat_app, for_each_app.
  unfold bind.
  pose proof (loop_memo_consistent organization repo1
    (concat ((λ change, default [] (change_commits change)) <$> changes1)) ∅ s1)
    as Hmemo.
  pose proof (for_each_grows
    (concat ((λ change, default [] (change_commits change)) <$> changes1))
    (process_commit organization repo1) ∅ s1 (process_commit_grows organization repo1))
    as (_ & Hrepos & _).
  destruct (for_each _ _ ∅ s1) as [[m1|e] s2]; [|done]. cbn [snd fst without_memo] in *.
  intros _.
  rewrite PushEventWebhook_call_flat. cbn [repository_uuid repository_full_name].
  rewrite Hrepos, Hfind1, Hsync. unfold commits_of. cbn [push_changes].
  apply loop_any_memo.
  - apply Hmemo. intros email author. by rewrite lookup_empty.
  - intros email author. by rewrite lookup_empty.
Qed.

End Payload_shape.

Lemma payload_may_be_split_witness :
  let deliver changes :=
    PushEventWebhook_call (collaborators := sample_collaborators) sample_organization
      {| repository_uuid := "abc-123"; repository_full_name := "new/name";
         push_changes := changes |} in
  deliver ([ {| change_commits := Some [sample_commit] |} ] ++
           [ {| change_commits := Some [long_email_commit] |} ]) sample_storage =
  deliver [ {| change_commits := Some [long_email_commit] |} ]
    (deliver [ {| change_commits := Some [sample_commit] |} ] sample_storage).2.
Proof.
  apply (payload_may_be_split (collaborators := sample_collaborators)
           sample_organization "abc-123" "new/name").
  - unfold repository_ids_unique. cbn. apply NoDup_singleton.
  - vm_compute. reflexivity.
Defined.
